(** * Messaging and scheduling substrate: events, cancellable priority queue,
      failure-propagating worker, communication ports, discovery, services.

    A shallow embedding of the Python sources
    ([event_interface.py], [priority_queue.py], [exception_threading.py],
    [communication_port.py], [discovery.py], [service.py]) together with the
    properties the specification states about them. *)

From stdpp Require Import gmap strings list fin_maps pretty.
From Stdlib Require Import ZArith Lia Sorted Permutation Ascii.
From Equations Require Import Equations.


(** * Part I: the program *)

(** ** Python exceptions and results *)

(** The exception classes the sources raise or let escape.  The string of
    an exception is its message ([str(exc)]). *)
Inductive exn_class :=
| IndexError
| RuntimeError
| AttributeError
| TypeError
| ValueError
| NotImplementedError
| UserError (name : string).

Record exn := Exn { exn_cls : exn_class; exn_msg : string }.

Inductive result (A : Type) :=
| Return (a : A)
| Raise (e : exn).
Arguments Return {A} a.
Arguments Raise {A} e.

(** What attribute access on [None] raises. *)
Definition none_has_no_attribute (attr : string) : exn :=
  Exn AttributeError ("'NoneType' object has no attribute '" ++ attr ++ "'").

#[global] Instance exn_class_eq_dec : EqDecision exn_class.
Proof. solve_decision. Defined.

(** ** event_interface.py *)

(** Objects are referred to by reference; a [ref] is the identity of an
    event object in the object store. *)
Definition ref := nat.

(** [AbstractEvent]: the attributes set by [__init__]; [date_time] is a
    point on the (totally ordered) time line. *)
Record AbstractEvent := mkEvent {
  date_time : Z;
  _cancelled : bool
}.

(** [AbstractEvent.__init__] *)
Definition AbstractEvent_init (dt : Z) : AbstractEvent :=
  {| date_time := dt; _cancelled := false |}.

(** [AbstractEvent.__eq__] *)
Definition event_eq (a b : AbstractEvent) : bool :=
  (date_time a =? date_time b)%Z.

(** [AbstractEvent.__lt__] *)
Definition event_lt (a b : AbstractEvent) : bool :=
  (date_time a <? date_time b)%Z.

(** [AbstractEvent.cancel] *)
Definition event_cancel (e : AbstractEvent) : AbstractEvent :=
  {| date_time := date_time e; _cancelled := true |}.

(** [AbstractEvent.cancelled] (property) *)
Definition cancelled (e : AbstractEvent) : bool := _cancelled e.

(** The object store: every reference held by the program denotes an
    event object.  Mutation of an object is visible through every alias. *)
Definition store := ref -> AbstractEvent.

Definition store_cancel (s : store) (r : ref) : store :=
  fun r' => if decide (r' = r) then event_cancel (s r) else s r'.

(** [a < b] on two event references, as evaluated by [heapq]. *)
Definition ref_lt (s : store) (a b : ref) : bool := event_lt (s a) (s b).

(** ** heapq (CPython's [Lib/heapq.py]), on a list used as an array *)

Module heapq.
Section Heapq.
(** [a < b] on heap items, i.e. the items' [__lt__]. *)
Variable less : ref -> ref -> bool.

(** [parentpos = (pos - 1) >> 1] *)
Definition parentpos (pos : nat) : nat := (pos - 1) / 2.

(** The [while pos > startpos] loop of [_siftdown]; [heap[parentpos]] is
    always in range because [parentpos < pos] and [heap[pos]] was read
    by the caller. *)
Equations? _siftdown_loop (heap : list ref) (startpos pos : nat)
    (newitem : ref) : list ref by wf pos lt :=
  _siftdown_loop heap startpos pos newitem with decide (startpos < pos) => {
    | left _ with less newitem (heap !!! parentpos pos) => {
        | true := _siftdown_loop (<[pos := heap !!! parentpos pos]> heap)
                    startpos (parentpos pos) newitem;
        | false := <[pos := newitem]> heap };
    | right _ := <[pos := newitem]> heap }.
Proof.
  unfold parentpos. pose proof (Nat.div_mod_eq (pos - 1) 2).
  pose proof (Nat.mod_upper_bound (pos - 1) 2). lia.
Qed.

(** [_siftdown(heap, startpos, pos)] *)
Definition _siftdown (heap : list ref) (startpos pos : nat) : list ref :=
  _siftdown_loop heap startpos pos (heap !!! pos).

(** The child position chosen in the body of [_siftup]'s loop: the right
    child if there is one and the left child is not smaller than it. *)
Definition smaller_child (heap : list ref) (endpos childpos : nat) : nat :=
  let rightpos := childpos + 1 in
  if bool_decide (rightpos < endpos)
     && negb (less (heap !!! childpos) (heap !!! rightpos))
  then rightpos else childpos.

(** The [while childpos < endpos] loop of [_siftup]: returns the heap
    and the leaf position reached. *)
Equations? _siftup_loop (heap : list ref) (endpos pos : nat)
    : list ref * nat by wf (endpos - pos) lt :=
  _siftup_loop heap endpos pos with decide (2 * pos + 1 < endpos) => {
    | left _ :=
        _siftup_loop
          (<[pos := heap !!! smaller_child heap endpos (2 * pos + 1)]> heap)
          endpos (smaller_child heap endpos (2 * pos + 1));
    | right _ := (heap, pos) }.
Proof.
  unfold smaller_child. destruct (_ && _) eqn:E; [|lia].
  apply andb_prop in E as [E _]. apply bool_decide_eq_true in E. lia.
Qed.

(** [_siftup(heap, pos)] *)
Definition _siftup (heap : list ref) (pos : nat) : list ref :=
  let endpos := length heap in
  let startpos := pos in
  let newitem := heap !!! pos in
  let '(heap, pos) := _siftup_loop heap endpos pos in
  let heap := <[pos := newitem]> heap in
  _siftdown heap startpos pos.

(** [heappush(heap, item)] *)
Definition heappush (heap : list ref) (item : ref) : list ref :=
  let heap := heap ++ [item] in
  _siftdown heap 0 (length heap - 1).

(** [heappop(heap)]: the popped item and the heap left, or [None] when
    [heap.pop()] raises [IndexError] on the empty list. *)
Definition heappop (heap : list ref) : option (ref * list ref) :=
  match last heap with
  | None => None
  | Some lastelt =>
      let heap := take (length heap - 1) heap in
      match heap with
      | [] => Some (lastelt, heap)
      | returnitem :: _ =>
          let heap := <[0 := lastelt]> heap in
          Some (returnitem, _siftup heap 0)
      end
  end.
End Heapq.
End heapq.

(** ** heapq: arithmetic of positions, loop equations, lengths

    These few facts come before [priority_queue.py]: the loop of
    [PriorityQueue.pop] terminates because [heappop] shortens the heap. *)

Lemma parentpos_spec i :
  2 * heapq.parentpos i <= i - 1 < 2 * heapq.parentpos i + 2.
Proof.
  unfold heapq.parentpos. pose proof (Nat.div_mod_eq (i - 1) 2).
  pose proof (Nat.mod_upper_bound (i - 1) 2). lia.
Qed.

Lemma parentpos_lt i : 0 < i -> heapq.parentpos i < i.
Proof. pose proof (parentpos_spec i). lia. Qed.

Lemma parentpos_child c p :
  0 < c -> heapq.parentpos c = p <-> (c = 2 * p + 1 \/ c = 2 * p + 2).
Proof. pose proof (parentpos_spec c). lia. Qed.

Section HeapqUnfold.
Variable less : ref -> ref -> bool.

Lemma _siftdown_loop_unfold heap startpos pos newitem :
  heapq._siftdown_loop less heap startpos pos newitem =
  if decide (startpos < pos) then
    if less newitem (heap !!! heapq.parentpos pos)
    then heapq._siftdown_loop less
           (<[pos := heap !!! heapq.parentpos pos]> heap)
           startpos (heapq.parentpos pos) newitem
    else <[pos := newitem]> heap
  else <[pos := newitem]> heap.
Proof.
  funelim (heapq._siftdown_loop less heap startpos pos newitem).
  all: destruct (decide (startpos < pos)); try lia; try reflexivity.
  all: match goal with E : less _ _ = _ |- _ => rewrite E end; reflexivity.
Qed.

Lemma _siftup_loop_unfold heap endpos pos :
  heapq._siftup_loop less heap endpos pos =
  if decide (2 * pos + 1 < endpos) then
    heapq._siftup_loop less
      (<[pos := heap !!! heapq.smaller_child less heap endpos (2 * pos + 1)]>
         heap)
      endpos (heapq.smaller_child less heap endpos (2 * pos + 1))
  else (heap, pos).
Proof.
  funelim (heapq._siftup_loop less heap endpos pos).
  all: destruct (decide (2 * pos + 1 < endpos)); try lia; reflexivity.
Qed.

Lemma siftdown_loop_length heap startpos pos newitem :
  length (heapq._siftdown_loop less heap startpos pos newitem) = length heap.
Proof.
  revert heap. induction pos as [pos IH] using lt_wf_ind. intros heap.
  rewrite _siftdown_loop_unfold.
  destruct (decide (startpos < pos)); [|by rewrite length_insert].
  destruct (less _ _); [|by rewrite length_insert].
  rewrite IH by (apply parentpos_lt; lia). by rewrite length_insert.
Qed.

Lemma siftup_loop_length heap endpos pos :
  length (heapq._siftup_loop less heap endpos pos).1 = length heap.
Proof.
  remember (endpos - pos) as m eqn:Hm.
  revert heap pos Hm. induction m as [m IH] using lt_wf_ind.
  intros heap pos Hm. rewrite _siftup_loop_unfold.
  destruct (decide (2 * pos + 1 < endpos)) as [Hlt|]; [|done].
  erewrite IH; [by rewrite length_insert| |reflexivity].
  unfold heapq.smaller_child. cbv zeta.
  destruct (_ && _); lia.
Qed.

Lemma siftup_length heap pos :
  length (heapq._siftup less heap pos) = length heap.
Proof.
  unfold heapq._siftup, heapq._siftdown. cbv zeta.
  pose proof (siftup_loop_length heap (length heap) pos) as Hl.
  destruct (heapq._siftup_loop less heap (length heap) pos) as [h p].
  simpl in Hl. by rewrite siftdown_loop_length, length_insert.
Qed.

Lemma heappush_length heap item :
  length (heapq.heappush less heap item) = S (length heap).
Proof.
  unfold heapq.heappush, heapq._siftdown.
  rewrite siftdown_loop_length, length_app. simpl. lia.
Qed.

Lemma heappop_length heap x heap' :
  heapq.heappop less heap = Some (x, heap') ->
  length heap = S (length heap').
Proof.
  unfold heapq.heappop.
  destruct heap as [|lastelt h _] using rev_ind; [done|].
  rewrite last_snoc, length_app. simpl.
  replace (length h + 1 - 1) with (length h) by lia.
  rewrite take_app_length.
  destruct h as [|r t]; intros [= <- <-]; [done|].
  rewrite siftup_length. simpl. lia.
Qed.

Lemma heappop_None heap : heapq.heappop less heap = None <-> heap = [].
Proof.
  unfold heapq.heappop. split; [|by intros ->].
  destruct heap as [|lastelt h _] using rev_ind; [done|].
  rewrite last_snoc. by destruct (take _ _).
Qed.
End HeapqUnfold.

(** ** priority_queue.py *)

Definition inspect {A} (a : A) : {b | a = b} := exist _ a eq_refl.

Module PriorityQueue.
(** The [_pq] attribute: the list [heapq] works on.  [_pq_lock] only
    serialises the methods and is not part of the sequential state. *)
Record t := mk { _pq : list ref }.

(** [PriorityQueue.__init__] *)
Definition init : t := mk [].

(** [PriorityQueue.push] *)
Definition push (s : store) (q : t) (event : ref) : t :=
  mk (heapq.heappush (ref_lt s) (_pq q) event).

(** [heappop] on the empty list raises [IndexError]. *)
Definition empty_heap_error : exn := Exn IndexError "index out of range".

(** [PriorityQueue.pop]: the first [heappop] followed by the
    [while event.cancelled] loop.  The queue returned is the one left
    behind, also when [IndexError] escapes. *)
Equations? pop_heap (s : store) (pq : list ref) : result ref * list ref
    by wf (length pq) lt :=
  pop_heap s pq with inspect (heapq.heappop (ref_lt s) pq) => {
    | exist _ None _ := (Raise empty_heap_error, pq);
    | exist _ (Some (event, pq')) _ with cancelled (s event) => {
        | true := pop_heap s pq';
        | false := (Return event, pq') } }.
Proof. match goal with H : _ = Some _ |- _ => apply heappop_length in H end. lia. Qed.

Definition pop (s : store) (q : t) : result ref * t :=
  let '(r, pq) := pop_heap s (_pq q) in (r, mk pq).

(** [PriorityQueue.empty] *)
Definition empty (s : store) (q : t) : bool :=
  forallb (fun e => cancelled (s e)) (_pq q).

(** A [key] callable applied to an event object: it is handed the
    object, so it sees its identity and attributes, and being a Python
    callable it can also read any other object of the store.  It is
    evaluated in the store as it is at the moment of the call. *)
Definition keyfn := store -> ref -> bool.

(** [PriorityQueue.cancel]: the loop over [self._pq]; returns the store
    after the calls to [e.cancel()] and the list [le]. *)
Definition cancel_step (key : keyfn) (acc : store * list ref) (e : ref)
    : store * list ref :=
  let '(s, le) := acc in
  if key s e then (store_cancel s e, le ++ [e]) else (s, le).

Definition cancel (key : keyfn) (s : store) (q : t) : store * list ref :=
  fold_left (cancel_step key) (_pq q) (s, []).

(** [PriorityQueue.contains] *)
Definition contains (key : keyfn) (s : store) (q : t) : bool :=
  existsb (fun e => key s e) (_pq q).

(** [PriorityQueue.get] *)
Definition get (key : keyfn) (s : store) (q : t) : list ref :=
  filter (fun e => key s e = true) (_pq q).
End PriorityQueue.


(** ** [repr] of a [str] (CPython's [unicode_repr])

    A string is read as the sequence of its characters' code points, each
    below 256. *)

Definition single_quote : Ascii.ascii := "'"%char.
Definition double_quote : Ascii.ascii := "034"%char.
Definition backslash : Ascii.ascii := "092"%char.

Fixpoint occurs (c : Ascii.ascii) (s : string) : bool :=
  match s with
  | EmptyString => false
  | String c' rest => Ascii.eqb c' c || occurs c rest
  end.

(** The quote [repr] encloses the string in: double quotes when the
    string holds a single quote and no double quote, else single quotes. *)
Definition repr_quote (s : string) : Ascii.ascii :=
  if occurs single_quote s && negb (occurs double_quote s)
  then double_quote else single_quote.

(** [Py_hexdigits] *)
Definition hex_digit (n : N) : Ascii.ascii :=
  match n with
  | 0 => "0" | 1 => "1" | 2 => "2" | 3 => "3" | 4 => "4" | 5 => "5"
  | 6 => "6" | 7 => "7" | 8 => "8" | 9 => "9" | 10 => "a" | 11 => "b"
  | 12 => "c" | 13 => "d" | 14 => "e" | _ => "f"
  end%char%N.

Definition hex_escape (n : N) : string :=
  String backslash
    (String "x" (String (hex_digit (n / 16)) (String (hex_digit (n mod 16)) ""))).

(** [Py_UNICODE_ISPRINTABLE] on the code points from 128 to 255: the
    controls up to 159, the no-break space 160 and the soft hyphen 173 are
    not printable. *)
Definition printable_above_ascii (n : N) : bool :=
  ((161 <=? n) && negb (n =? 173))%N.

(** What [repr] writes for one character, inside [quote]. *)
Definition repr_char (quote c : Ascii.ascii) : string :=
  let n := N_of_ascii c in
  if Ascii.eqb c quote || Ascii.eqb c backslash
  then String backslash (String c "")
  else if (n =? 9)%N then String backslash "t"
  else if (n =? 10)%N then String backslash "n"
  else if (n =? 13)%N then String backslash "r"
  else if (n <? 32)%N || (n =? 127)%N then hex_escape n
  else if (n <? 127)%N then String c ""
  else if printable_above_ascii n then String c ""
  else hex_escape n.

Fixpoint repr_chars (quote : Ascii.ascii) (s : string) : string :=
  match s with
  | EmptyString => String quote ""
  | String c rest => repr_char quote c ++ repr_chars quote rest
  end.

Definition py_repr (s : string) : string :=
  let quote := repr_quote s in String quote (repr_chars quote s).

(** ** exception_threading.py *)

Module ExceptionThread.
(** The thread object: its [name] and the [exc] attribute, which holds what
    [sys.exc_info()] gave (the exception's class and value), or [None]. *)
Record t := mk { name : string; exc : option exn }.

(** [ExceptionThread.__init__] *)
Definition init (name : string) : t := mk name None.

(** [isinstance(e, NotImplementedError)]; a class deriving from
    [NotImplementedError] is represented by [NotImplementedError]. *)
Definition is_NotImplementedError (e : exn) : bool :=
  bool_decide (exn_cls e = NotImplementedError).

(** [ExceptionThread.run], given the outcome of [run_with_exception()].
    [Raise] means the exception leaves [run] inside the worker thread. *)
Definition run (body : result unit) (th : t) : result t :=
  match body with
  | Return _ => Return th
  | Raise e =>
      if is_NotImplementedError e then Raise e
      else Return (mk (name th) (Some e))
  end.

(** [cls(msg)]: the built-in classes take the message; what a class of
    the collaborator does with it is given by [user_ctor]. *)
Definition instantiate (user_ctor : string -> string -> result exn)
    (cls : exn_class) (msg : string) : result exn :=
  match cls with
  | UserError n => user_ctor n msg
  | _ => Return (Exn cls msg)
  end.

(** ['Thread {0!r} threw an exception: \'{1}\''.format(self.name, self.exc[1])] *)
Definition join_message (th_name : string) (e : exn) : string :=
  "Thread " ++ py_repr th_name ++ " threw an exception: '" ++ exn_msg e ++ "'".

(** [ExceptionThread.join], called once the worker has stopped. *)
Definition join (user_ctor : string -> string -> result exn) (th : t)
    : result unit :=
  match exc th with
  | None => Return tt
  | Some e =>
      let msg := join_message (name th) e in
      match instantiate user_ctor (exn_cls e) msg with
      | Return error => Raise error
      | Raise te =>
          if bool_decide (exn_cls te = TypeError)
          then Raise (Exn RuntimeError msg)
          else Raise te
      end
  end.
End ExceptionThread.

(** ** service_interface.py and service.py *)

Inductive ServiceMode := ASYNC | SYNC.

#[global] Instance ServiceMode_eq_dec : EqDecision ServiceMode.
Proof. solve_decision. Defined.

Module Service.
(** A [Service] object: the mode, the queue it owns ([None] unless
    asynchronous), and the thread it is. *)
Record t := mk {
  _service_mode : ServiceMode;
  _event_queue : option PriorityQueue.t;
  thread : ExceptionThread.t;
  started : bool
}.

(** [ServiceInterface.is_async] *)
Definition is_async (sv : t) : bool :=
  bool_decide (_service_mode sv = ASYNC).

(** [Service.__init__] *)
Definition init (service_mode : ServiceMode) : t :=
  let sv := mk service_mode None (ExceptionThread.init "ServiceThread") false in
  if is_async sv
  then mk service_mode (Some PriorityQueue.init) (thread sv) false
  else sv.

(** [Service.start]; [Thread.start] refuses a second start. *)
Definition start (sv : t) : result t :=
  if negb (is_async sv) then Raise (Exn RuntimeError "")
  else if started sv
  then Raise (Exn RuntimeError "threads can only be started once")
  else Return (mk (_service_mode sv) (_event_queue sv) (thread sv) true).

Section Dispatch.
(** The collaborator's state and its [process_event], the abstract method
    every concrete service supplies. *)
Context {X : Type}.
Variable process_event : ref -> store -> X -> result X.

(** [Service.add_event] *)
Definition add_event (sv : t) (s : store) (x : X) (event : ref)
    : result (t * X) :=
  if is_async sv then
    match _event_queue sv with
    | Some q =>
        Return (mk (_service_mode sv) (Some (PriorityQueue.push s q event))
                   (thread sv) (started sv), x)
    | None => Raise (none_has_no_attribute "push")
    end
  else
    match process_event event s x with
    | Return x' => Return (sv, x')
    | Raise e => Raise e
    end.
End Dispatch.

(** [Service.cancel] *)
Definition cancel (key : PriorityQueue.keyfn) (s : store) (sv : t)
    : result (store * list ref) :=
  match _event_queue sv with
  | Some q => Return (PriorityQueue.cancel key s q)
  | None => Raise (none_has_no_attribute "cancel")
  end.

(** [Service.contains] *)
Definition contains (key : PriorityQueue.keyfn) (s : store) (sv : t)
    : result bool :=
  match _event_queue sv with
  | Some q => Return (PriorityQueue.contains key s q)
  | None => Raise (none_has_no_attribute "contains")
  end.

(** [Service.get] *)
Definition get (key : PriorityQueue.keyfn) (s : store) (sv : t)
    : result (list ref) :=
  match _event_queue sv with
  | Some q => Return (PriorityQueue.get key s q)
  | None => Raise (none_has_no_attribute "get")
  end.
End Service.

(** ** test_service.py: a concrete service in the manner of the tests *)

Module DummyService.
(** The collaborator's state: the events whose [execute] has run. *)
Definition executed := list ref.

(** [DummyService.process_event]: [event.execute()], for events whose
    [execute] records that it ran. *)
Definition process_event (event : ref) (s : store) (x : executed)
    : result executed :=
  Return (x ++ [event]).

(** One turn of the [while True] loop of [run_with_exception]: pop and
    process; on [IndexError] sleep and go round again. *)
Definition loop_turn (s : store) (sv : Service.t) (x : executed)
    : result (Service.t * executed) :=
  match Service._event_queue sv with
  | None => Raise (none_has_no_attribute "pop")
  | Some q =>
      let '(r, q') := PriorityQueue.pop s q in
      let sv' := Service.mk (Service._service_mode sv) (Some q')
                            (Service.thread sv) (Service.started sv) in
      match r with
      | Return ev =>
          match process_event ev s x with
          | Return x' => Return (sv', x')
          | Raise e => Raise e
          end
      | Raise e =>
          if bool_decide (exn_cls e = IndexError) then Return (sv', x)
          else Raise e
      end
  end.
End DummyService.

(** ** communication_port.py and discovery.py: values and the world *)

Inductive CommunicationMode :=
| FUNCTION_CALL_SEND
| FUNCTION_CALL_RECV
| TCP_SEND
| TCP_RECV.

#[global] Instance CommunicationMode_eq_dec : EqDecision CommunicationMode.
Proof. solve_decision. Defined.

(** Attribute access on the enum class, [CommunicationMode.<name>]: the
    member of that name, or [AttributeError]. *)
Definition CommunicationMode_getattr (name : string)
    : result CommunicationMode :=
  if String.eqb name "FUNCTION_CALL_SEND" then Return FUNCTION_CALL_SEND
  else if String.eqb name "FUNCTION_CALL_RECV" then Return FUNCTION_CALL_RECV
  else if String.eqb name "TCP_SEND" then Return TCP_SEND
  else if String.eqb name "TCP_RECV" then Return TCP_RECV
  else Raise (Exn AttributeError name).

Inductive DiscoveryError := SERVICE_UNKNOWN | MISSING_KEY_IN_REQUEST.

Inductive ServiceType := CLIENT | ALLOCATOR | SCHEDULER | ELECTRICAL_NETWORK.

(** A port object is referred to by reference. *)
Definition port_ref := nat.

(** The values carried in messages and held in attributes: [None],
    strings, integers, enum members and references to ports.  On these
    [==] is structural equality. *)
Inductive value :=
| VNone
| VStr (s : string)
| VInt (z : Z)
| VServiceType (t : ServiceType)
| VDiscoveryError (e : DiscoveryError)
| VPort (p : port_ref).

#[global] Instance DiscoveryError_eq_dec : EqDecision DiscoveryError.
Proof. solve_decision. Defined.
#[global] Instance ServiceType_eq_dec : EqDecision ServiceType.
Proof. solve_decision. Defined.
#[global] Instance value_eq_dec : EqDecision value.
Proof. solve_decision. Defined.

(** Truth value of an object ([if x:], [not x]). *)
Definition truthy (v : value) : bool :=
  match v with
  | VNone => false
  | VStr s => negb (String.eqb s "")
  | VInt z => negb (z =? 0)%Z
  | VServiceType _ | VDiscoveryError _ | VPort _ => true
  end.

(** A message: a [dict] with string keys. *)
Abbreviation payload := (gmap string value).

(** The callables registered as callbacks: a function of the
    collaborator, or a bound method of a discovery object. *)
Inductive callable :=
| UserFunction (f : nat)
| ServerReceive (services_data : list payload)
| DelegateHandleResponse (d : nat).

(** [USE_PORT = "zmq"] *)
Definition USE_PORT : string := "zmq".

Module CommunicationPort.
(** The attributes of a port.  The socket ([soc]) is represented by the
    address it was connected to; the listener and receiver threads
    ([task]) are outside the model. *)
Record t := mk {
  _communication_mode : CommunicationMode;
  _target_port : value;
  _receive_callback : option callable;
  _receive_callback_tcp : option callable;
  _listening : bool;
  target_address : value;
  _name : string;
  recv : bool;
  soc_connected : option value
}.

Definition set_target (v : value) (connected : option value) (p : t) : t :=
  mk (_communication_mode p) v (_receive_callback p)
     (_receive_callback_tcp p) (_listening p) (target_address p) (_name p)
     (recv p) connected.

Definition set_receive_callback (c : option callable) (p : t) : t :=
  mk (_communication_mode p) (_target_port p) c
     (_receive_callback_tcp p) (_listening p) (target_address p) (_name p)
     (recv p) (soc_connected p).

Definition set_name (n : string) (p : t) : t :=
  mk (_communication_mode p) (_target_port p) (_receive_callback p)
     (_receive_callback_tcp p) (_listening p) (target_address p) n
     (recv p) (soc_connected p).

(** [CommunicationPort.is_ready], the value returned. *)
Definition is_ready (p : t) : bool :=
  let port_is_ref :=
    match _target_port p with VPort _ => true | _ => false end in
  let ref_ready :=
    port_is_ref && bool_decide (FUNCTION_CALL_SEND = _communication_mode p) in
  let tcp_ready :=
    bool_decide (TCP_SEND = _communication_mode p) && _listening p in
  ref_ready || tcp_ready.
End CommunicationPort.

(** [DiscoveryDelegate]: [_ready] (is the event set) and [_resdata]. *)
Record DiscoveryDelegate := mkDelegate {
  _ready : bool;
  _resdata : option payload
}.

(** The objects of a run: ports, discovery delegates, what was handed to
    sockets, what was logged as an error, and the collaborators' own
    state [U]. *)
Record world (U : Type) := mkWorld {
  ports : gmap port_ref CommunicationPort.t;
  delegates : gmap nat DiscoveryDelegate;
  sent : list (port_ref * payload);
  logged : list string;
  user : U
}.
Arguments mkWorld {U}.
Arguments ports {U}.
Arguments delegates {U}.
Arguments sent {U}.
Arguments logged {U}.
Arguments user {U}.

(** A call either returns a value in a new world, raises, or never
    returns. *)
Inductive outcome (U A : Type) :=
| Ok (a : A) (w : world U)
| Fail (e : exn) (w : world U)
| Hang.
Arguments Ok {U A}.
Arguments Fail {U A}.
Arguments Hang {U A}.

Definition M (U A : Type) : Type := world U -> outcome U A.

Definition ret {U A} (a : A) : M U A := fun w => Ok a w.

Definition bind {U A B} (c : M U A) (k : A -> M U B) : M U B :=
  fun w =>
    match c w with
    | Ok a w' => k a w'
    | Fail e w' => Fail e w'
    | Hang => Hang
    end.

Definition raise {U A} (e : exn) : M U A := fun w => Fail e w.

Definition lift {U A} (r : result A) : M U A :=
  match r with Return a => ret a | Raise e => raise e end.

Declare Scope m_scope.
Delimit Scope m_scope with M.
Notation "x <- c ;; k" := (bind c (fun x => k))
  (at level 100, c at next level, right associativity) : m_scope.
Notation "c ;;; k" := (bind c (fun _ => k))
  (at level 100, right associativity) : m_scope.
Open Scope m_scope.

Definition log_error {U} (msg : string) : M U unit :=
  fun w => Ok tt (mkWorld (ports w) (delegates w) (sent w)
                          (logged w ++ [msg]) (user w)).

(** Reading a port through a reference; a reference always denotes an
    object, so the error case is for ill-formed worlds only. *)
Definition get_port {U} (p : port_ref) : M U CommunicationPort.t :=
  fun w =>
    match ports w !! p with
    | Some port => Ok port w
    | None => Fail (Exn AttributeError "dangling reference") w
    end.

Definition update_port {U} (p : port_ref)
    (f : CommunicationPort.t -> CommunicationPort.t) : M U unit :=
  fun w =>
    match ports w !! p with
    | Some port =>
        Ok tt (mkWorld (<[p := f port]> (ports w)) (delegates w) (sent w)
                       (logged w) (user w))
    | None => Fail (Exn AttributeError "dangling reference") w
    end.

(** ** discovery.py: the server *)

Module DiscoveryServer.
(** [DiscoveryServer.make_service_data] *)
Definition make_service_data
    (service_type service_reference service_tcp_port service_id : value)
    : result payload :=
  if negb (truthy service_type)
  then Raise (Exn ValueError "service_type must be set")
  else if truthy service_tcp_port && truthy service_reference
  then Raise (Exn ValueError
         "do not use service_tcp_port and service_reference at the same time")
  else
    let dico : payload := {["service_type" := service_type]} in
    let dico :=
      if truthy service_reference
      then <["service_reference" := service_reference]> dico
      else <["service_tcp_port" := service_tcp_port]> dico in
    let dico :=
      if truthy service_id then <["service_id" := service_id]> dico
      else dico in
    Return dico.

(** The predicate [pydash.find] builds from [{"service_type": t}]: the
    entry has that key with an equal value. *)
Definition matches_service_type (t : value) (entry : payload) : bool :=
  bool_decide (entry !! "service_type" = Some t).

Definition error_reply (e : DiscoveryError) : payload :=
  {["error" := VDiscoveryError e]}.

(** [DiscoveryServer.receive], for the server holding [services_data] in
    [_data]. *)
Definition receive {U} (services_data : list payload) (data : payload)
    (respond_function : payload -> M U unit) : M U unit :=
  match data !! "service_type" with
  | None => respond_function (error_reply MISSING_KEY_IN_REQUEST)
  | Some t =>
      match List.find (matches_service_type t) services_data with
      | Some res =>
          if bool_decide (res = ∅)
          then respond_function (error_reply SERVICE_UNKNOWN)
          else respond_function res
      | None => respond_function (error_reply SERVICE_UNKNOWN)
      end
  end.

(** [DiscoveryServer.__init__]: registers [self.receive] on the port. *)
Definition init {U} (services_data : list payload) (discovery_port : port_ref)
    : M U unit :=
  update_port discovery_port
    (CommunicationPort.set_receive_callback
       (Some (ServerReceive services_data))).
End DiscoveryServer.

(** ** communication_port.py: the methods, and discovery.py: the delegate *)

Section Ports.
Context {U : Type}.
(** The collaborators' callbacks: [user_call f data respond] is the call
    [f(data)] or [f(data, respond_function=respond)]. *)
Variable user_call :
  nat -> payload -> option (payload -> M U unit) -> M U unit.

(** [DiscoveryDelegate._discovery_handle_response] *)
Definition _discovery_handle_response (d : nat) (data : payload) : M U unit :=
  fun w => Ok tt (mkWorld (ports w)
                          (<[d := mkDelegate true (Some data)]> (delegates w))
                          (sent w) (logged w) (user w)).

(** Calling what a port holds as callback, with or without the keyword
    argument [respond_function]. *)
Definition call (c : option callable) (data : payload)
    (respond : option (payload -> M U unit)) : M U unit :=
  match c with
  | None => raise (Exn TypeError "'NoneType' object is not callable")
  | Some (UserFunction f) => user_call f data respond
  | Some (ServerReceive services_data) =>
      match respond with
      | Some r => DiscoveryServer.receive services_data data r
      | None => raise (Exn TypeError "missing argument 'respond_function'")
      end
  | Some (DelegateHandleResponse d) =>
      match respond with
      | None => _discovery_handle_response d data
      | Some _ => raise (Exn TypeError "unexpected argument 'respond_function'")
      end
  end.

(** [CommunicationPort.receive] *)
Definition receive (p : port_ref) (data : payload)
    (respond_function : option (payload -> M U unit)) : M U unit :=
  port <- get_port p ;;
  match respond_function with
  | Some r => call (CommunicationPort._receive_callback port) data (Some r)
  | None =>
      (if bool_decide (CommunicationPort._communication_mode port = TCP_SEND)
       then call (CommunicationPort._receive_callback port) data None
       else ret tt) ;;;
      (if bool_decide (CommunicationPort._communication_mode port
                       = FUNCTION_CALL_RECV)
          || bool_decide (CommunicationPort._communication_mode port
                          = FUNCTION_CALL_SEND)
       then call (CommunicationPort._receive_callback port) data None
       else ret tt)
  end.

(** [self.soc.send(pickle.dumps(data))] and the start of the receiver
    thread.  [soc] is a zmq [REQ] socket ([USE_PORT] is ["zmq"]): once
    [connect] has been called the request is handed to the socket (the
    exchange with the peer that follows is outside the model); on a
    socket that was never connected there is no peer to take the request
    and [send] does not return. *)
Definition socket_send (p : port_ref) (data : payload) : M U unit :=
  port <- get_port p ;;
  match CommunicationPort.soc_connected port with
  | Some _ =>
      fun w => Ok tt (mkWorld (ports w) (delegates w) (sent w ++ [(p, data)])
                              (logged w) (user w))
  | None => fun _ => Hang
  end.

Definition not_ready_error (port : CommunicationPort.t) : exn :=
  Exn RuntimeError
      (CommunicationPort._name port ++ ": communication ports are not ready").

(** [CommunicationPort.send] *)
Definition send (p : port_ref) (data : payload) : M U unit :=
  port <- get_port p ;;
  let ready := CommunicationPort.is_ready port in
  (if ready then ret tt else log_error "you must set target_port") ;;;
  if negb ready then raise (not_ready_error port)
  else if bool_decide (CommunicationPort._communication_mode port
                       = FUNCTION_CALL_SEND)
  then
    match CommunicationPort._target_port port with
    | VPort target =>
        receive target data (Some (fun resp => receive p resp None))
    | _ => raise (Exn AttributeError "receive")
    end
  else if bool_decide (CommunicationPort._communication_mode port = TCP_SEND)
  then socket_send p data
  else raise (Exn AttributeError
         "communicationMode needs to be FUNCTION_CALL_SEND or TCP_SEND").

(** [CommunicationPort._start_sending]: the new value of [_listening]. *)
Definition _start_sending : result bool :=
  if String.eqb USE_PORT "zmq" then Return true
  else if String.eqb USE_PORT "socket" then Return true
  else Raise (Exn ValueError "USE_PORT needs to be zmq or socket").

(** [CommunicationPort.__init__]: a new port object. *)
Definition new_port (communication_mode : CommunicationMode)
    (target_address : value) : M U port_ref :=
  listening <- (if bool_decide (communication_mode = TCP_SEND)
                then lift _start_sending else ret false) ;;
  fun w =>
    let r := fresh (dom (ports w)) in
    let port := CommunicationPort.mk communication_mode VNone None None
                  listening target_address "" false None in
    Ok r (mkWorld (<[r := port]> (ports w)) (delegates w) (sent w)
                  (logged w) (user w)).

(** The setter of [CommunicationPort.target_port]; a network-send port
    also connects its socket, which takes an address string. *)
Definition set_target_port (p : port_ref) (v : value) : M U unit :=
  port <- get_port p ;;
  if bool_decide (CommunicationPort._communication_mode port = TCP_SEND)
  then
    update_port p (CommunicationPort.set_target v
                     (CommunicationPort.soc_connected port)) ;;;
    match v with
    | VStr _ => update_port p (CommunicationPort.set_target v (Some v))
    | _ => raise (Exn TypeError "expected str")
    end
  else update_port p (CommunicationPort.set_target v
                        (CommunicationPort.soc_connected port)).

(** [while not self._ready.is_set(): time.sleep(0.01)]: nothing else
    runs that could set the event. *)
Definition wait_ready (d : nat) : M U unit :=
  fun w =>
    match delegates w !! d with
    | Some dd => if _ready dd then Ok tt w else Hang
    | None => Hang
    end.

Definition get_resdata (d : nat) : M U payload :=
  fun w =>
    match delegates w !! d with
    | Some (mkDelegate _ (Some data)) => Ok data w
    | _ => Fail (none_has_no_attribute "keys") w
    end.

Definition show_value (v : value) : string :=
  match v with
  | VDiscoveryError SERVICE_UNKNOWN => "DiscoveryError.SERVICE_UNKNOWN"
  | VDiscoveryError MISSING_KEY_IN_REQUEST =>
      "DiscoveryError.MISSING_KEY_IN_REQUEST"
  | VStr s => s
  | _ => "<object>"
  end.

(** [DiscoveryDelegate.connect_to_service], for the delegate [d]; the
    lookup of a member of [CommunicationMode] by name is [enum_attr]. *)
Definition connect_to_service_with
    (enum_attr : string -> result CommunicationMode)
    (d : nat) (service_type : value) (service_handle_response : callable)
    (discovery_port_target : value) : M U port_ref :=
  discovery_port_mode <-
    lift (enum_attr (match discovery_port_target with
                     | VPort _ => "FUNCTION_CALL"
                     | _ => "TCP"
                     end)) ;;
  discovery_port <- new_port discovery_port_mode VNone ;;
  update_port discovery_port
    (CommunicationPort.set_name "DiscoveryDelegate_connect_port") ;;;
  set_target_port discovery_port discovery_port_target ;;;
  update_port discovery_port
    (CommunicationPort.set_receive_callback
       (Some (DelegateHandleResponse d))) ;;;
  send discovery_port {["service_type" := service_type]} ;;;
  wait_ready d ;;;
  resdata <- get_resdata d ;;
  resport <-
    match resdata !! "service_reference", resdata !! "tcp_port",
          resdata !! "error" with
    | Some reference, _, _ =>
        mode <- lift (enum_attr "FUNCTION_CALL") ;;
        rp <- new_port mode VNone ;;
        set_target_port rp reference ;;;
        ret (Some rp)
    | None, Some address, _ =>
        mode <- lift (enum_attr "TCP") ;;
        rp <- new_port mode VNone ;;
        set_target_port rp address ;;;
        ret (Some rp)
    | None, None, Some err =>
        log_error ("discovery server answered this: " ++ show_value err) ;;;
        ret None
    | None, None, None =>
        raise (Exn ValueError "discovery service answer not not make any sens")
    end ;;
  match resport with
  | Some rp =>
      update_port rp
        (CommunicationPort.set_receive_callback
           (Some service_handle_response)) ;;;
      ret rp
  | None => raise (none_has_no_attribute "receive_callback")
  end.

(** [DiscoveryDelegate.connect_to_service] as the module is written. *)
Definition connect_to_service :=
  connect_to_service_with CommunicationMode_getattr.
End Ports.

(** ** functools.total_ordering, for a class that defines [__lt__] and
       [__eq__] *)

Module total_ordering.
Section Derived.
Context {A : Type}.
(** The class's own [__lt__] and [__eq__]. *)
Variable lt : A -> A -> bool.
Variable eq : A -> A -> bool.

(** [a != b], Python's default from [__eq__]. *)
Definition ne (a b : A) : bool := negb (eq a b).

(** [_gt_from_lt]: [not (a < b) and a != b]. *)
Definition _gt_from_lt (a b : A) : bool := negb (lt a b) && ne a b.

(** [_le_from_lt]: [a < b or a == b]. *)
Definition _le_from_lt (a b : A) : bool := lt a b || eq a b.

(** [_ge_from_lt]: [not a < b]. *)
Definition _ge_from_lt (a b : A) : bool := negb (lt a b).
End Derived.
End total_ordering.

(** ** event_interface.py: the comparisons the decorator adds to
       [AbstractEvent] *)

(** [a != b] *)
Definition event_ne : AbstractEvent -> AbstractEvent -> bool :=
  total_ordering.ne event_eq.

(** [a > b] *)
Definition event_gt : AbstractEvent -> AbstractEvent -> bool :=
  total_ordering._gt_from_lt event_lt event_eq.

(** [a <= b] *)
Definition event_le : AbstractEvent -> AbstractEvent -> bool :=
  total_ordering._le_from_lt event_lt event_eq.

(** [a >= b] *)
Definition event_ge : AbstractEvent -> AbstractEvent -> bool :=
  total_ordering._ge_from_lt event_lt.

(** ** test_service.py: the first turns of the worker loop *)

(** The first [n] turns of the [while True] loop of
    [DummyService.run_with_exception]. *)
Fixpoint loop_turns (n : nat) (s : store) (sv : Service.t)
    (x : DummyService.executed) : result (Service.t * DummyService.executed) :=
  match n with
  | 0 => Return (sv, x)
  | S n' =>
      match DummyService.loop_turn s sv x with
      | Return (sv', x') => loop_turns n' s sv' x'
      | Raise e => Raise e
      end
  end.

(** ** communication_port.py: [ListenThread._check_address] *)

(** [str.split(sep)] for a one-character separator: the text before the
    first separator and the list of the parts after it. *)
Fixpoint split_go (sep : Ascii.ascii) (s : string) : string * list string :=
  match s with
  | EmptyString => (EmptyString, [])
  | String c rest =>
      let '(part, parts) := split_go sep rest in
      if Ascii.eqb c sep then (EmptyString, part :: parts)
      else (String c part, parts)
  end.

Definition split (sep : Ascii.ascii) (s : string) : list string :=
  let '(part, parts) := split_go sep s in part :: parts.

(** The characters [int()] skips around a number in an ASCII string:
    space, and tab to carriage return. *)
Definition is_space (c : Ascii.ascii) : bool :=
  let n := Ascii.nat_of_ascii c in
  Nat.eqb n 32 || (Nat.leb 9 n && Nat.leb n 13).

Definition digit_value (c : Ascii.ascii) : option Z :=
  let n := Ascii.nat_of_ascii c in
  if Nat.leb 48 n && Nat.leb n 57 then Some (Z.of_nat (n - 48)) else None.

Fixpoint skip_spaces (s : string) : string :=
  match s with
  | String c rest => if is_space c then skip_spaces rest else s
  | EmptyString => s
  end.

(** The digits of a decimal literal after its start: digits, each
    optionally preceded by one underscore; gives the value and the text
    left, or [None] where an underscore is not followed by a digit. *)
Fixpoint int_digits (acc : Z) (s : string) : option (Z * string) :=
  match s with
  | EmptyString => Some (acc, s)
  | String c rest =>
      match digit_value c with
      | Some d => int_digits (10 * acc + d) rest
      | None =>
          if Ascii.eqb c "_"%char then
            match rest with
            | String c' rest' =>
                match digit_value c' with
                | Some d => int_digits (10 * acc + d) rest'
                | None => None
                end
            | EmptyString => None
            end
          else Some (acc, s)
      end
  end.

(** [int(s)] on an ASCII string, [None] for [ValueError]: optional
    surrounding space, an optional sign, then decimal digits with single
    underscores allowed between them (no limit on their number). *)
Definition py_int (s : string) : option Z :=
  let s := skip_spaces s in
  let '(negative, s) :=
    match s with
    | String c rest =>
        if Ascii.eqb c "+"%char then (false, rest)
        else if Ascii.eqb c "-"%char then (true, rest)
        else (false, s)
    | EmptyString => (false, s)
    end in
  match s with
  | String c _ =>
      match digit_value c with
      | Some _ =>
          match int_digits 0 s with
          | Some (n, rest) =>
              match skip_spaces rest with
              | EmptyString => Some (if negative then (- n)%Z else n)
              | _ => None
              end
          | None => None
          end
      | None => None
      end
  | EmptyString => None
  end.

(** [[int(b) for b in host_bytes]]: the first failure fails the whole. *)
Fixpoint int_all (parts : list string) : option (list Z) :=
  match parts with
  | [] => Some []
  | p :: rest =>
      match py_int p with
      | Some n =>
          match int_all rest with
          | Some ns => Some (n :: ns)
          | None => None
          end
      | None => None
      end
  end.

(** [ListenThread._check_address], on the thread's [target]. *)
Definition _check_address (target : string) : bool :=
  if String.eqb target "localhost" then true
  else
    let host_bytes := split "."%char target in
    match int_all host_bytes with
    | Some valid =>
        let valid := List.filter (fun b => (0 <=? b)%Z && (b <=? 255)%Z) valid in
        Nat.eqb (length host_bytes) 4 && Nat.eqb (length valid) 4
    | None => false
    end.

Example check_address_examples :
  _check_address "localhost" = true /\
  _check_address "127.0.0.1" = true /\
  _check_address "256.0.0.1" = false /\
  _check_address "1.2.3" = false /\
  _check_address "a.b.c.d" = false /\
  split "."%char "" = [EmptyString] /\
  py_int " +1_0 " = Some 10%Z /\ py_int "1__0" = None /\ py_int "-" = None.
Proof. repeat split; reflexivity. Qed.

(** * Part II: properties *)

(** ** Facts about heapq: the heap invariant *)

(** Items compared through a key: [a < b] iff [key a < key b]. *)
Definition key_less (key : ref -> Z) (a b : ref) : bool := (key a <? key b)%Z.

Section HeapqFacts.
Variable key : ref -> Z.
Local Abbreviation less := (key_less key).

(** The heap condition on the edge from position [i] to its parent. *)
Definition edge_ok (heap : list ref) (i : nat) : Prop :=
  (key (heap !!! heapq.parentpos i) <= key (heap !!! i))%Z.

(** The heap invariant of [heapq]: [heap[(k-1)//2] <= heap[k]]. *)
Definition heap_ok (heap : list ref) : Prop :=
  forall i, 0 < i < length heap -> edge_ok heap i.

Lemma heap_ok_root heap i :
  heap_ok heap -> i < length heap ->
  (key (heap !!! 0%nat) <= key (heap !!! i))%Z.
Proof.
  intros Hok. induction i as [i IH] using lt_wf_ind. intros Hi.
  destruct (decide (i = 0)) as [->|Hne]; [lia|].
  pose proof (parentpos_lt i ltac:(lia)) as Hp.
  pose proof (Hok i ltac:(lia)) as He. unfold edge_ok in He.
  specialize (IH _ Hp ltac:(lia)). lia.
Qed.

Lemma siftdown_loop_perm heap pos newitem :
  pos < length heap ->
  Permutation (heapq._siftdown_loop less heap 0 pos newitem)
              (<[pos := newitem]> heap).
Proof.
  revert heap. induction pos as [pos IH] using lt_wf_ind. intros heap Hpos.
  rewrite _siftdown_loop_unfold.
  destruct (decide (0 < pos)); [|done].
  destruct (less _ _); [|done].
  pose proof (parentpos_lt pos ltac:(lia)) as Hp.
  rewrite IH by (rewrite ?length_insert; lia).
  rewrite <- (list_insert_insert_eq heap pos (heap !!! heapq.parentpos pos) newitem).
  apply Permutation_insert_swap.
  - apply list_lookup_insert_eq. lia.
  - rewrite list_lookup_insert_ne by lia.
    apply list_lookup_lookup_total_lt. lia.
Qed.

(** The loop of [_siftdown] restores the invariant when only the edge
    above the hole at [pos] may be violated. *)
Lemma siftdown_loop_ok heap pos newitem :
  pos < length heap ->
  (forall i, 0 < i < length heap -> i <> pos -> edge_ok heap i) ->
  (forall c, 0 < c < length heap -> heapq.parentpos c = pos ->
             (key newitem <= key (heap !!! c))%Z) ->
  (forall c, 0 < c < length heap -> heapq.parentpos c = pos -> 0 < pos ->
             (key (heap !!! heapq.parentpos pos) <= key (heap !!! c))%Z) ->
  heap_ok (heapq._siftdown_loop less heap 0 pos newitem).
Proof.
  revert heap. induction pos as [pos IH] using lt_wf_ind.
  intros heap Hpos I1 I2 I3.
  rewrite _siftdown_loop_unfold.
  assert (Hfin : (pos = 0 \/ (key (heap !!! heapq.parentpos pos) <= key newitem)%Z)
                 -> heap_ok (<[pos := newitem]> heap)).
  { intros Hstop i Hi. rewrite length_insert in Hi. unfold edge_ok.
    destruct (decide (i = pos)) as [->|Hne].
    - rewrite list_lookup_total_insert_eq by lia.
      rewrite list_lookup_total_insert_ne by (pose proof (parentpos_lt pos); lia).
      destruct Hstop; [lia|done].
    - rewrite (list_lookup_total_insert_ne _ pos i) by lia.
      destruct (decide (heapq.parentpos i = pos)) as [Hc|Hc].
      + rewrite Hc, list_lookup_total_insert_eq by lia. by apply I2.
      + rewrite list_lookup_total_insert_ne by lia. by apply I1. }
  destruct (decide (0 < pos)) as [Hgt|]; [|apply Hfin; lia].
  destruct (less _ _) eqn:Hless; unfold key_less in Hless.
  2:{ apply Hfin. right. lia. }
  apply Z.ltb_lt in Hless.
  pose proof (parentpos_lt pos Hgt) as Hp.
  set (pp := heapq.parentpos pos) in *.
  apply IH; rewrite ?length_insert; try lia.
  - intros i Hi Hne. unfold edge_ok.
    destruct (decide (i = pos)) as [->|Hne'].
    + rewrite list_lookup_total_insert_eq by lia.
      fold pp. rewrite list_lookup_total_insert_ne by lia. lia.
    + rewrite (list_lookup_total_insert_ne _ pos i) by lia.
      destruct (decide (heapq.parentpos i = pos)) as [Hc|Hc].
      * rewrite Hc, list_lookup_total_insert_eq by lia. apply I3; auto.
      * rewrite list_lookup_total_insert_ne by lia. by apply I1.
  - intros c Hc Hcp.
    destruct (decide (c = pos)) as [->|Hne].
    + rewrite list_lookup_total_insert_eq by lia. lia.
    + rewrite list_lookup_total_insert_ne by lia.
      pose proof (I1 c Hc Hne) as He. unfold edge_ok in He.
      rewrite Hcp in He. lia.
  - intros c Hc Hcp Hpp.
    assert (Hg : (key (heap !!! heapq.parentpos pp) <= key (heap !!! pp))%Z).
    { apply (I1 pp); lia. }
    pose proof (parentpos_lt pp Hpp).
    rewrite (list_lookup_total_insert_ne _ pos (heapq.parentpos pp)) by lia.
    destruct (decide (c = pos)) as [->|Hne].
    + rewrite list_lookup_total_insert_eq by lia. done.
    + rewrite list_lookup_total_insert_ne by lia.
      pose proof (I1 c Hc Hne) as He. unfold edge_ok in He.
      rewrite Hcp in He. lia.
Qed.

Lemma smaller_child_spec heap endpos pos :
  2 * pos + 1 < endpos ->
  let c := heapq.smaller_child less heap endpos (2 * pos + 1) in
  (c = 2 * pos + 1 \/ c = 2 * pos + 2) /\ c < endpos /\
  (key (heap !!! c) <= key (heap !!! (2 * pos + 1)%nat))%Z /\
  (2 * pos + 2 < endpos ->
   (key (heap !!! c) <= key (heap !!! (2 * pos + 2)%nat))%Z).
Proof.
  intros Hlt. unfold heapq.smaller_child, key_less. cbv zeta.
  replace (2 * pos + 1 + 1) with (2 * pos + 2) by lia.
  destruct (bool_decide (2 * pos + 2 < endpos)) eqn:Hb;
    [apply bool_decide_eq_true in Hb|apply bool_decide_eq_false in Hb];
    cbn [andb].
  - destruct (Z.ltb_spec (key (heap !!! (2 * pos + 1)))
                         (key (heap !!! (2 * pos + 2))));
      cbn [negb]; repeat split; try lia; intros; lia.
  - repeat split; try lia; intros; lia.
Qed.

(** The loop of [_siftup] moves the smaller child up until the hole is a
    leaf; every edge not below the hole keeps the heap condition. *)
Lemma siftup_loop_spec heap pos heap' pos' :
  pos < length heap ->
  (forall i, 0 < i < length heap -> heapq.parentpos i <> pos ->
             edge_ok heap i) ->
  (forall c, 0 < c < length heap -> heapq.parentpos c = pos -> 0 < pos ->
             (key (heap !!! heapq.parentpos pos) <= key (heap !!! c))%Z) ->
  heapq._siftup_loop less heap (length heap) pos = (heap', pos') ->
  length heap' = length heap /\ pos' < length heap /\
  length heap <= 2 * pos' + 1 /\ heap_ok heap' /\
  (forall n, Permutation (<[pos' := n]> heap') (<[pos := n]> heap)).
Proof.
  remember (length heap - pos) as m eqn:Hm.
  revert heap pos Hm. induction m as [m IH] using lt_wf_ind.
  intros heap pos Hm Hpos J1 J3. rewrite _siftup_loop_unfold.
  destruct (decide (2 * pos + 1 < length heap)) as [Hlt|Hge].
  2:{ intros [= <- <-]. repeat split; try lia; [|done].
      intros i Hi. apply J1; [done|].
      intros Hc. apply parentpos_child in Hc; lia. }
  pose proof (smaller_child_spec heap (length heap) pos Hlt) as Hsc.
  simpl in Hsc. set (c := heapq.smaller_child _ _ _ _) in *.
  destruct Hsc as (Hc & Hclt & Hleft & Hright).
  assert (Hpc : heapq.parentpos c = pos) by (apply parentpos_child; lia).
  intros Hloop.
  rewrite <- (length_insert heap pos (heap !!! c)) in Hloop.
  apply IH with (m := length heap - c) in Hloop;
    rewrite ?length_insert in *; try lia.
  - destruct Hloop as (Hl & Hp' & Hleaf & Hok & Hperm).
    repeat split; try done. intros n. rewrite Hperm.
    rewrite <- (list_insert_insert_eq heap pos (heap !!! c) n).
    apply Permutation_insert_swap.
    + apply list_lookup_insert_eq. lia.
    + rewrite list_lookup_insert_ne by lia.
      by apply list_lookup_lookup_total_lt.
  - intros i Hi Hne. unfold edge_ok.
    destruct (decide (i = pos)) as [->|Hne'].
    + rewrite list_lookup_total_insert_eq by lia.
      pose proof (parentpos_lt pos ltac:(lia)).
      rewrite list_lookup_total_insert_ne by lia. apply J3; lia.
    + rewrite (list_lookup_total_insert_ne _ pos i) by lia.
      destruct (decide (heapq.parentpos i = pos)) as [Hip|Hip].
      * rewrite Hip, list_lookup_total_insert_eq by lia.
        apply parentpos_child in Hip; [|lia].
        destruct Hip as [->| ->]; [done|]. apply Hright. lia.
      * rewrite list_lookup_total_insert_ne by lia. by apply J1.
  - intros d Hd Hdc _. rewrite Hpc.
    rewrite list_lookup_total_insert_eq by lia.
    assert (d <> pos) by (apply parentpos_child in Hdc; lia).
    rewrite list_lookup_total_insert_ne by lia.
    pose proof (J1 d Hd ltac:(lia)) as He. unfold edge_ok in He.
    by rewrite Hdc in He.
Qed.

Lemma heap_ok_prefix heap l : heap_ok (heap ++ l) -> heap_ok heap.
Proof.
  intros Hok i Hi. pose proof (parentpos_lt i ltac:(lia)).
  specialize (Hok i). rewrite length_app in Hok.
  unfold edge_ok in *. rewrite !lookup_total_app_l in Hok by lia.
  apply Hok. lia.
Qed.

Lemma heappush_ok heap item :
  heap_ok heap -> heap_ok (heapq.heappush less heap item).
Proof.
  intros Hok. unfold heapq.heappush, heapq._siftdown.
  rewrite length_app. simpl.
  replace (length heap + 1 - 1) with (length heap) by lia.
  apply siftdown_loop_ok; rewrite ?length_app; simpl; try lia.
  - intros i Hi Hne. pose proof (parentpos_lt i ltac:(lia)).
    unfold edge_ok. rewrite !lookup_total_app_l by lia. apply Hok. lia.
  - intros c Hc Hcp. apply parentpos_child in Hcp; lia.
  - intros c Hc Hcp. apply parentpos_child in Hcp; lia.
Qed.

Lemma heappush_perm heap item :
  Permutation (heapq.heappush less heap item) (item :: heap).
Proof.
  unfold heapq.heappush, heapq._siftdown.
  rewrite length_app. simpl.
  replace (length heap + 1 - 1) with (length heap) by lia.
  rewrite siftdown_loop_perm by (rewrite length_app; simpl; lia).
  rewrite list_insert_id.
  - by rewrite Permutation_app_comm.
  - apply list_lookup_lookup_total_lt. rewrite length_app. simpl. lia.
Qed.

Lemma siftup_root_spec heap :
  0 < length heap ->
  (forall i, 0 < i < length heap -> heapq.parentpos i <> 0 ->
             edge_ok heap i) ->
  heap_ok (heapq._siftup less heap 0) /\
  Permutation (heapq._siftup less heap 0) heap.
Proof.
  intros Hlen J1. unfold heapq._siftup. cbv zeta.
  destruct (heapq._siftup_loop less heap (length heap) 0)
    as [heap' pos'] eqn:Hloop.
  apply siftup_loop_spec in Hloop; [|done|done|lia].
  destruct Hloop as (Hl & Hp' & Hleaf & Hok & Hperm).
  unfold heapq._siftdown.
  rewrite list_lookup_total_insert_eq by lia. split.
  - apply siftdown_loop_ok; rewrite ?length_insert; try lia.
    + intros i Hi Hne. unfold edge_ok.
      assert (heapq.parentpos i <> pos').
      { intros Hc. apply parentpos_child in Hc; lia. }
      rewrite !list_lookup_total_insert_ne by lia. apply Hok. lia.
    + intros c Hc Hcp. apply parentpos_child in Hcp; lia.
    + intros c Hc Hcp. apply parentpos_child in Hcp; lia.
  - rewrite siftdown_loop_perm by (rewrite length_insert; lia).
    rewrite list_insert_insert_eq, Hperm.
    rewrite list_insert_id; [done|].
    apply list_lookup_lookup_total_lt. lia.
Qed.

(** [heappop] fails exactly on the empty heap; otherwise it returns the
    root, which is minimal, and leaves a heap of the other items. *)
Lemma heappop_spec heap :
  heap_ok heap ->
  match heapq.heappop less heap with
  | None => heap = []
  | Some (x, heap') =>
      heap !! 0 = Some x /\ heap_ok heap' /\ Permutation heap (x :: heap') /\
      (forall y, y ∈ heap -> (key x <= key y)%Z)
  end.
Proof.
  intros Hok. unfold heapq.heappop.
  destruct heap as [|r t] using rev_ind; [done|]. clear IHt.
  rename r into lastelt, t into h.
  rewrite last_snoc, length_app. simpl.
  replace (length h + 1 - 1) with (length h) by lia.
  rewrite take_app_length.
  assert (Hmin : forall x, (h ++ [lastelt]) !! 0 = Some x ->
                 forall y, y ∈ h ++ [lastelt] -> (key x <= key y)%Z).
  { intros x Hx y Hy. apply list_elem_of_lookup in Hy as [i Hi].
    pose proof (lookup_lt_Some _ _ _ Hi) as Hlt.
    apply list_lookup_total_correct in Hx, Hi. subst x y.
    by apply heap_ok_root. }
  destruct h as [|returnitem t].
  - simpl. split; [done|]. split; [by intros i Hi; simpl in Hi; lia|].
    split; [done|]. by apply Hmin.
  - simpl. pose proof (heap_ok_prefix _ _ Hok) as Hok'.
    destruct (siftup_root_spec (lastelt :: t)) as [Hs Hp].
    + simpl. lia.
    + intros i Hi Hne. simpl in Hi. pose proof (parentpos_lt i ltac:(lia)).
      specialize (Hok' i Hi). unfold edge_ok in *.
      destruct i as [|i]; [lia|].
      destruct (heapq.parentpos (S i)) as [|pp]; [done|]. done.
    + split; [done|]. split; [done|]. split; [|by apply Hmin].
      rewrite Hp. simpl. apply perm_skip.
      by rewrite Permutation_app_comm.
Qed.
End HeapqFacts.

(** ** Facts about the priority queue *)

(** The key [heapq] orders event references by. *)
Definition dtime (s : store) (r : ref) : Z := date_time (s r).

Lemma ref_lt_key_less s : ref_lt s = key_less (dtime s).
Proof. reflexivity. Qed.

Lemma pop_heap_unfold s pq :
  PriorityQueue.pop_heap s pq =
  match heapq.heappop (ref_lt s) pq with
  | None => (Raise PriorityQueue.empty_heap_error, pq)
  | Some (event, pq') =>
      if cancelled (s event) then PriorityQueue.pop_heap s pq'
      else (Return event, pq')
  end.
Proof.
  funelim (PriorityQueue.pop_heap s pq).
  all: match goal with E : heapq.heappop _ _ = _ |- _ => rewrite E end.
  all: try match goal with E : cancelled _ = _ |- _ => rewrite E end.
  all: reflexivity.
Qed.

Lemma heap_ok_ext key key' heap :
  (forall r, key r = key' r) -> heap_ok key heap -> heap_ok key' heap.
Proof.
  intros Hext Hok i Hi. specialize (Hok i Hi).
  unfold edge_ok in *. by rewrite <- !Hext.
Qed.

(** One call of [pop] on a heap: either it returns a live event that is
    minimal among what stays queued, having dropped only cancelled
    events, or every queued event was cancelled, all were dropped, and
    [IndexError] escapes. *)
Lemma pop_heap_spec s pq :
  heap_ok (dtime s) pq ->
  match PriorityQueue.pop_heap s pq with
  | (Return e, pq') =>
      cancelled (s e) = false /\ heap_ok (dtime s) pq' /\
      (exists dropped, Permutation pq (dropped ++ e :: pq') /\
                       Forall (fun d => cancelled (s d) = true) dropped) /\
      (forall y, y ∈ pq' -> (dtime s e <= dtime s y)%Z)
  | (Raise ex, pq') =>
      ex = PriorityQueue.empty_heap_error /\ pq' = [] /\
      Forall (fun d => cancelled (s d) = true) pq
  end.
Proof.
  remember (length pq) as n eqn:Hn. revert pq Hn.
  induction n as [n IH] using lt_wf_ind. intros pq Hn Hok.
  rewrite pop_heap_unfold.
  pose proof (heappop_spec (dtime s) pq Hok) as Hpop.
  rewrite <- ref_lt_key_less in Hpop.
  destruct (heapq.heappop (ref_lt s) pq) as [[x pq1]|] eqn:Hp.
  2:{ subst pq. done. }
  destruct Hpop as (_ & Hok1 & Hperm & Hmin).
  destruct (cancelled (s x)) eqn:Hc.
  - assert (Hlen : length pq1 < n).
    { apply Permutation_length in Hperm. simpl in Hperm. lia. }
    specialize (IH _ Hlen pq1 eq_refl Hok1).
    destruct (PriorityQueue.pop_heap s pq1) as [[e|ex] pq'].
    + destruct IH as (He & Hok' & (dropped & Hd & Hall) & Hmin').
      split; [done|]. split; [done|]. split; [|done].
      exists (x :: dropped). split.
      * rewrite Hperm, Hd. done.
      * by constructor.
    + destruct IH as (-> & -> & Hall). split; [done|]. split; [done|].
      rewrite Hperm. by constructor.
  - split; [done|]. split; [done|]. split.
    + exists []. by split.
    + intros y Hy. apply Hmin. rewrite Hperm. by right.
Qed.

Lemma store_cancel_dtime s e r : dtime (store_cancel s e) r = dtime s r.
Proof. unfold dtime, store_cancel. by case_decide; subst. Qed.

Lemma store_cancel_mono s e r :
  cancelled (s r) = true -> cancelled (store_cancel s e r) = true.
Proof. unfold store_cancel. by case_decide. Qed.

Lemma cancel_fold_dtime key l s le r :
  dtime (fold_left (PriorityQueue.cancel_step key) l (s, le)).1 r = dtime s r.
Proof.
  revert s le. induction l as [|a l IH]; intros s le; simpl; [done|].
  destruct (key s a); rewrite IH; [apply store_cancel_dtime|done].
Qed.

Lemma cancel_fold_mono key l s le r :
  cancelled (s r) = true ->
  cancelled ((fold_left (PriorityQueue.cancel_step key) l (s, le)).1 r) = true.
Proof.
  revert s le. induction l as [|a l IH]; intros s le Hc; simpl; [done|].
  destruct (key s a); apply IH; [by apply store_cancel_mono|done].
Qed.

(** *** Sequences of operations on one queue *)

Inductive op :=
| Push (event : ref)
| Cancel (key : PriorityQueue.keyfn)
| Pop.


(** One operation; a [Pop] also yields what [pop()] returned or raised. *)
Definition step (o : op) (st : store * PriorityQueue.t)
    : (store * PriorityQueue.t) * option (result ref) :=
  let '(s, q) := st in
  match o with
  | Push e => ((s, PriorityQueue.push s q e), None)
  | Cancel key => (((PriorityQueue.cancel key s q).1, q), None)
  | Pop => let '(r, q') := PriorityQueue.pop s q in ((s, q'), Some r)
  end.

Fixpoint run (ops : list op) (st : store * PriorityQueue.t)
    : (store * PriorityQueue.t) * list (result ref) :=
  match ops with
  | [] => (st, [])
  | o :: ops' =>
      let '(st1, out) := step o st in
      let '(st2, outs) := run ops' st1 in
      (st2, match out with Some r => r :: outs | None => outs end)
  end.

(** The events the calls of [pop()] returned, in order. *)
Fixpoint returned (outs : list (result ref)) : list ref :=
  match outs with
  | [] => []
  | Return e :: outs' => e :: returned outs'
  | Raise _ :: outs' => returned outs'
  end.

Definition queue_ok (st : store * PriorityQueue.t) : Prop :=
  heap_ok (dtime st.1) (PriorityQueue._pq st.2).

Lemma pop_spec s q :
  heap_ok (dtime s) (PriorityQueue._pq q) ->
  match PriorityQueue.pop s q with
  | (Return e, q') =>
      cancelled (s e) = false /\ heap_ok (dtime s) (PriorityQueue._pq q') /\
      (exists dropped,
          Permutation (PriorityQueue._pq q) (dropped ++ e :: PriorityQueue._pq q') /\
          Forall (fun d => cancelled (s d) = true) dropped) /\
      (forall y, y ∈ PriorityQueue._pq q' -> (dtime s e <= dtime s y)%Z)
  | (Raise ex, q') =>
      ex = PriorityQueue.empty_heap_error /\ PriorityQueue._pq q' = [] /\
      Forall (fun d => cancelled (s d) = true) (PriorityQueue._pq q)
  end.
Proof.
  intros Hok. unfold PriorityQueue.pop.
  pose proof (pop_heap_spec s _ Hok) as H.
  by destruct (PriorityQueue.pop_heap s (PriorityQueue._pq q)) as [[e|ex] pq'].
Qed.

Lemma step_queue_ok o st : queue_ok st -> queue_ok (step o st).1.
Proof.
  destruct st as [s q]. unfold queue_ok. simpl. intros Hok.
  destruct o as [e|key|]; simpl.
  - rewrite ref_lt_key_less. by apply heappush_ok.
  - eapply heap_ok_ext; [|exact Hok]. intros r. symmetry.
    apply cancel_fold_dtime.
  - pose proof (pop_spec s q Hok) as H.
    destruct (PriorityQueue.pop s q) as [[e|ex] q']; simpl.
    + tauto.
    + destruct H as (_ & -> & _). intros i Hi. simpl in Hi. lia.
Qed.

Lemma step_dtime o st r : dtime (step o st).1.1 r = dtime st.1 r.
Proof.
  destruct st as [s q]. destruct o as [e|key|]; simpl; [done| |].
  - apply cancel_fold_dtime.
  - by destruct (PriorityQueue.pop s q).
Qed.

Lemma run_queue_ok ops st : queue_ok st -> queue_ok (run ops st).1.
Proof.
  revert st. induction ops as [|o ops IH]; intros st Hok; simpl; [done|].
  pose proof (step_queue_ok o st Hok) as H1.
  destruct (step o st) as [st1 out]. specialize (IH st1 H1).
  by destruct (run ops st1).
Qed.

Lemma run_dtime ops st r : dtime (run ops st).1.1 r = dtime st.1 r.
Proof.
  revert st. induction ops as [|o ops IH]; intros st; simpl; [done|].
  pose proof (step_dtime o st r) as H1.
  destruct (step o st) as [st1 out]. specialize (IH st1).
  destruct (run ops st1). simpl in *. congruence.
Qed.



(** *** C1: what [pop()] returns over sequences of operations *)


(** Event 0 is due at 5, event 1 at 3, every other event at 7. *)
Definition store_5_3_7 : store :=
  fun r => AbstractEvent_init (match r with 0 => 5%Z | 1 => 3%Z | _ => 7%Z end).




(** *** C7: calling [cancel] twice *)

(** Two equations giving one boolean both truth values. *)
Ltac clash_bool H1 H2 :=
  exfalso; exact (Bool.diff_true_false (eq_trans (eq_sym H1) H2)).

(** Stores that hold the same object at every reference. *)
Definition same_store (s s' : store) : Prop := forall r, s r = s' r.

(** A predicate whose result on an event depends on that event only: on
    its identity and its own attributes, not on any other object. *)
Definition local_key (key : PriorityQueue.keyfn) : Prop :=
  forall (s s' : store) (r : ref), s r = s' r -> key s r = key s' r.

Lemma event_cancel_cancelled e : cancelled e = true -> event_cancel e = e.
Proof. destruct e as [dt c]. unfold cancelled. simpl. by intros ->. Qed.

(** A pass of [cancel] with a local predicate over events that are
    already cancelled whenever the predicate holds changes no object and
    collects the events the predicate holds for. *)
Lemma cancel_fold_fixed key l s0 s le :
  local_key key ->
  same_store s s0 ->
  (forall e, e ∈ l -> key s0 e = true -> cancelled (s0 e) = true) ->
  same_store (fold_left (PriorityQueue.cancel_step key) l (s, le)).1 s0 /\
  (fold_left (PriorityQueue.cancel_step key) l (s, le)).2
  = le ++ filter (fun e => key s0 e = true) l.
Proof.
  intros Hloc. revert s le. induction l as [|a l IH]; intros s le Hs Hk; simpl.
  { split; [done|]. by rewrite app_nil_r. }
  assert (Hl : forall e, e ∈ l -> key s0 e = true -> cancelled (s0 e) = true).
  { intros e He. apply Hk. by right. }
  rewrite (Hloc s s0 a (Hs a)). rewrite filter_cons.
  destruct (key s0 a) eqn:Ha.
  - rewrite decide_True by done.
    destruct (IH (store_cancel s a) (le ++ [a])) as [H1 H2]; [|done|].
    + intros r. unfold store_cancel. case_decide as Hr; [|apply Hs].
      subst r. rewrite (Hs a). apply event_cancel_cancelled.
      apply Hk; [by left|done].
    + split; [done|]. rewrite H2. by rewrite <- app_assoc.
  - rewrite decide_False by (by intros ?).
    by apply IH.
Qed.

(** An event the pass leaves uncancelled was not touched. *)
Lemma cancel_fold_untouched key l s le r :
  cancelled ((fold_left (PriorityQueue.cancel_step key) l (s, le)).1 r) = false ->
  (fold_left (PriorityQueue.cancel_step key) l (s, le)).1 r = s r.
Proof.
  revert s le. induction l as [|a l IH]; intros s le Hc; simpl in *; [done|].
  destruct (key s a) eqn:Ha; [|by apply IH].
  rewrite (IH _ _ Hc). unfold store_cancel. case_decide as Hr; [|done].
  assert (Hm : cancelled (store_cancel s a r) = true)
    by (unfold store_cancel; by rewrite decide_True).
  apply (cancel_fold_mono key l _ (le ++ [a])) in Hm.
  clash_bool Hm Hc.
Qed.

(** After a pass with a local predicate, the predicate holds only for
    cancelled events of the list. *)
Lemma cancel_fold_settled key l s le e :
  local_key key ->
  e ∈ l ->
  let s' := (fold_left (PriorityQueue.cancel_step key) l (s, le)).1 in
  key s' e = true -> cancelled (s' e) = true.
Proof.
  intros Hloc. revert s le. induction l as [|a l IH]; intros s le He.
  { by apply elem_of_nil in He. }
  simpl. destruct (key s a) eqn:Ha.
  - destruct (decide (e ∈ l)) as [Hin|Hnin]; [by apply IH|].
    apply elem_of_cons in He as [->|He]; [|done].
    intros _. apply cancel_fold_mono.
    unfold store_cancel. by rewrite decide_True.
  - destruct (decide (e ∈ l)) as [Hin|Hnin]; [by apply IH|].
    apply elem_of_cons in He as [->|He]; [|done].
    intros Hk. destruct (cancelled _) eqn:Hc; [done|].
    pose proof (cancel_fold_untouched _ _ _ _ _ Hc) as Hu.
    clash_bool Hk (eq_trans (Hloc _ _ a Hu) Ha).
Qed.

(** The literal reading of C7's second half. *)
Definition second_cancel_returns_nothing (key : PriorityQueue.keyfn)
    (s : store) (q : PriorityQueue.t) : Prop :=
  let s1 := (PriorityQueue.cancel key s q).1 in
  (PriorityQueue.cancel key s1 q).2 = [].

(** C7, counterexample: with one event queued and a predicate that holds
    for it, the second [cancel] returns that event again. *)
Lemma second_cancel_returns_the_matches_again :
  ~ second_cancel_returns_nothing (fun _ _ => true) store_5_3_7
      (PriorityQueue.push store_5_3_7 PriorityQueue.init 0).
Proof. unfold second_cancel_returns_nothing. vm_compute. discriminate. Qed.

(** The predicate [lambda e: e is e0 or e0.cancelled]: it reads the flag
    of event 0 whatever event it is applied to. *)
Definition is_e0_or_e0_cancelled : PriorityQueue.keyfn :=
  fun s r => Nat.eqb r 0 || cancelled (s 0).

(** C7, the first half needs the predicate to be local: with events 1 and
    0 queued in that order, the first [cancel] with the predicate above
    cancels event 0 only, and the second call cancels event 1 as well. *)
Lemma second_cancel_can_cancel_another_event :
  let key := is_e0_or_e0_cancelled in
  let q := (run [Push 0; Push 1] (store_5_3_7, PriorityQueue.init)).1.2 in
  let s1 := (PriorityQueue.cancel key store_5_3_7 q).1 in
  let s2 := (PriorityQueue.cancel key s1 q).1 in
  PriorityQueue._pq q = [1; 0] /\
  (PriorityQueue.cancel key store_5_3_7 q).2 = [0] /\
  cancelled (s1 1) = false /\
  (PriorityQueue.cancel key s1 q).2 = [1; 0] /\
  cancelled (s2 1) = true /\
  ~ local_key key.
Proof.
  intros key q s1 s2. repeat (split; [reflexivity|]).
  intros Hloc.
  specialize (Hloc store_5_3_7 (store_cancel store_5_3_7 0) 1 eq_refl).
  discriminate Hloc.
Qed.

(** C7 (amended): for a predicate whose result on an event depends on
    that event only, calling [cancel(predicate)] twice in succession, the
    second call changes no event (it cancels nothing new), and it returns
    every queued event that satisfies the predicate after the first call,
    in queue order; so it returns nothing exactly when no queued event
    satisfies the predicate. *)
Theorem cancel_twice (key : PriorityQueue.keyfn) (s : store)
    (q : PriorityQueue.t) :
  local_key key ->
  let s1 := (PriorityQueue.cancel key s q).1 in
  let s2 := (PriorityQueue.cancel key s1 q).1 in
  let le2 := (PriorityQueue.cancel key s1 q).2 in
  (forall r, s2 r = s1 r) /\
  le2 = PriorityQueue.get key s1 q /\
  (le2 = [] <-> PriorityQueue.contains key s1 q = false).
Proof.
  intros Hloc s1 s2 le2.
  destruct (cancel_fold_fixed key (PriorityQueue._pq q) s1 s1 []) as [H1 H2].
  { done. }
  { done. }
  { intros e He. by apply (cancel_fold_settled key _ s [] e). }
  split; [exact H1|]. split; [exact H2|].
  unfold le2, PriorityQueue.cancel. rewrite H2. simpl.
  unfold PriorityQueue.contains.
  generalize (PriorityQueue._pq q) as l. clear. intros l.
  induction l as [|a l IH]; simpl; [done|].
  rewrite filter_cons. destruct (key s1 a) eqn:Ha.
  - rewrite decide_True by done. simpl. split; discriminate.
  - rewrite decide_False by (by intros ?). simpl. exact IH.
Qed.

(** C7, witness: the predicate "due before 6 and not yet cancelled or
    event 2" on a queue of three events; it reads the event's own date
    and flag only. *)
Lemma cancel_twice_witness :
  let key : PriorityQueue.keyfn :=
    fun s r => (date_time (s r) <? 6)%Z && negb (cancelled (s r))
               || Nat.eqb r 2 in
  let q := (run [Push 0; Push 1; Push 2]
                (store_5_3_7, PriorityQueue.init)).1.2 in
  let s1 := (PriorityQueue.cancel key store_5_3_7 q).1 in
  let s2 := (PriorityQueue.cancel key s1 q).1 in
  let le2 := (PriorityQueue.cancel key s1 q).2 in
  local_key key /\
  ((forall r, s2 r = s1 r) /\
   le2 = PriorityQueue.get key s1 q /\
   (le2 = [] <-> PriorityQueue.contains key s1 q = false)).
Proof.
  intros key q s1 s2 le2.
  assert (Hloc : local_key key).
  { intros s s' r H. unfold key. by rewrite H. }
  split; [exact Hloc|].
  apply (cancel_twice key store_5_3_7 q Hloc).
Defined.

(** *** C10: events compare by [date_time] only *)

Section HeapqExt.
Variables less less' : ref -> ref -> bool.
Hypothesis less_ext : forall a b, less a b = less' a b.

Lemma siftdown_loop_less_ext heap startpos pos newitem :
  heapq._siftdown_loop less heap startpos pos newitem
  = heapq._siftdown_loop less' heap startpos pos newitem.
Proof.
  revert heap. induction pos as [pos IH] using lt_wf_ind. intros heap.
  rewrite (_siftdown_loop_unfold less), (_siftdown_loop_unfold less'), less_ext.
  destruct (decide (startpos < pos)); [|done].
  destruct (less' _ _); [|done].
  apply IH. apply parentpos_lt. lia.
Qed.

Lemma smaller_child_less_ext heap endpos childpos :
  heapq.smaller_child less heap endpos childpos
  = heapq.smaller_child less' heap endpos childpos.
Proof. unfold heapq.smaller_child. by rewrite less_ext. Qed.

Lemma siftup_loop_less_ext heap endpos pos :
  heapq._siftup_loop less heap endpos pos
  = heapq._siftup_loop less' heap endpos pos.
Proof.
  remember (endpos - pos) as m eqn:Hm.
  revert heap pos Hm. induction m as [m IH] using lt_wf_ind.
  intros heap pos Hm.
  rewrite (_siftup_loop_unfold less), (_siftup_loop_unfold less').
  destruct (decide (2 * pos + 1 < endpos)) as [Hlt|]; [|done].
  rewrite smaller_child_less_ext.
  eapply IH; [|reflexivity].
  unfold heapq.smaller_child. cbv zeta. destruct (_ && _); lia.
Qed.

Lemma heappush_less_ext heap item :
  heapq.heappush less heap item = heapq.heappush less' heap item.
Proof. unfold heapq.heappush, heapq._siftdown. apply siftdown_loop_less_ext. Qed.

Lemma heappop_less_ext heap :
  heapq.heappop less heap = heapq.heappop less' heap.
Proof.
  unfold heapq.heappop. destruct (last heap); [|done].
  destruct (take _ _); [done|].
  unfold heapq._siftup, heapq._siftdown. cbv zeta.
  rewrite siftup_loop_less_ext.
  destruct (heapq._siftup_loop less' _ _ _).
  by rewrite siftdown_loop_less_ext.
Qed.
End HeapqExt.

(** C10: [a == b] holds exactly when the two [date_time]s are equal and
    [a < b] exactly when [a.date_time < b.date_time]; so two event objects
    with the same [date_time] compare equal whatever their cancelled flag
    or identity, and what [heappush] and [heappop] do to the queue depends
    on the events' [date_time]s only. *)
Theorem events_compare_by_date_time (a b : AbstractEvent) :
  (event_eq a b = true <-> date_time a = date_time b) /\
  (event_lt a b = true <-> (date_time a < date_time b)%Z) /\
  (forall (s : store) (r1 r2 : ref),
      date_time (s r1) = date_time (s r2) ->
      event_eq (s r1) (s r2) = true /\
      event_eq (event_cancel (s r1)) (s r2) = true /\
      event_lt (s r1) (s r2) = false /\ event_lt (s r2) (s r1) = false) /\
  (forall (s s' : store) (heap : list ref) (item : ref),
      (forall r, date_time (s r) = date_time (s' r)) ->
      heapq.heappush (ref_lt s) heap item = heapq.heappush (ref_lt s') heap item /\
      heapq.heappop (ref_lt s) heap = heapq.heappop (ref_lt s') heap).
Proof.
  unfold event_eq, event_lt. split; [apply Z.eqb_eq|].
  split; [apply Z.ltb_lt|]. split.
  - intros s r1 r2 H. simpl. rewrite H.
    rewrite Z.eqb_refl, Z.ltb_irrefl. done.
  - intros s s' heap item H.
    assert (Hext : forall x y, ref_lt s x y = ref_lt s' x y).
    { intros x y. unfold ref_lt, event_lt. by rewrite !H. }
    split; [by apply heappush_less_ext|by apply heappop_less_ext].
Qed.

(** C10, witness: events 2 and 3 are both due at 7; a store in which
    every event is cancelled orders the queue like the original one. *)
Lemma events_compare_by_date_time_witness :
  let s : store := store_5_3_7 in
  let s' : store := fun r => event_cancel (store_5_3_7 r) in
  (date_time (s 2) = date_time (s 3) /\ event_eq (s 2) (s 3) = true) /\
  ((forall r, date_time (s r) = date_time (s' r)) /\
   heapq.heappush (ref_lt s) [1; 0] 2 = heapq.heappush (ref_lt s') [1; 0] 2).
Proof.
  intros s s'.
  destruct (events_compare_by_date_time (s 2) (s 3)) as (_ & _ & H3 & H4).
  split.
  - split; [reflexivity|]. apply (H3 s 2 3). reflexivity.
  - split; [intros r; reflexivity|].
    apply (H4 s s' [1; 0] 2). intros r. reflexivity.
Defined.

(** *** C8: cancelled events and the dispatch paths of a service *)

Lemma event_cancel_idempotent e :
  event_cancel (event_cancel e) = event_cancel e /\
  cancelled (event_cancel e) = true.
Proof. done. Qed.

(** In synchronous mode [add_event] is [process_event], whatever the
    event's cancelled flag. *)
Lemma sync_add_event_is_process_event {X} (process_event : ref -> store -> X -> result X)
    (s : store) (x : X) (event : ref) :
  Service.add_event process_event (Service.init SYNC) s x event
  = match process_event event s x with
    | Return x' => Return (Service.init SYNC, x')
    | Raise e => Raise e
    end.
Proof. reflexivity. Qed.

(** A turn of the worker loop executes at most the one event [pop()]
    returned, and that event is not cancelled. *)
Lemma loop_turn_executes_live_event s sv q x sv' x' :
  Service._event_queue sv = Some q ->
  heap_ok (dtime s) (PriorityQueue._pq q) ->
  DummyService.loop_turn s sv x = Return (sv', x') ->
  x' = x \/ exists ev, x' = x ++ [ev] /\ cancelled (s ev) = false.
Proof.
  intros Hq Hok. unfold DummyService.loop_turn. rewrite Hq.
  pose proof (pop_spec s q Hok) as Hpop.
  destruct (PriorityQueue.pop s q) as [[ev|ex] q'].
  - simpl. intros [= <- <-]. right. exists ev. split; [done|]. apply Hpop.
  - destruct (bool_decide _); [|done]. intros [= <- <-]. by left.
Qed.

(** C8, the code at the failing input: event 0 has been cancelled, and
    [add_event] on a synchronous service still hands it to
    [process_event], which executes it. *)
Theorem sync_add_event_executes_cancelled_event :
  let s := store_cancel store_5_3_7 0 in
  cancelled (s 0) = true /\
  Service.add_event DummyService.process_event (Service.init SYNC) s [] 0
  = Return (Service.init SYNC, [0]).
Proof. split; reflexivity. Qed.

(** *** C9: the queue operations of a synchronous service *)

(** C9, the code on a synchronous service: [start()] raises
    [RuntimeError] from its mode guard; [cancel], [contains] and [get]
    have no guard and raise the [AttributeError] of an attribute access on
    the absent ([None]) queue. *)
Theorem sync_service_queue_operations (key : PriorityQueue.keyfn) (s : store) :
  let sv := Service.init SYNC in
  Service._event_queue sv = None /\
  Service.start sv = Raise (Exn RuntimeError "") /\
  Service.cancel key s sv = Raise (none_has_no_attribute "cancel") /\
  Service.contains key s sv = Raise (none_has_no_attribute "contains") /\
  Service.get key s sv = Raise (none_has_no_attribute "get").
Proof. repeat split. Qed.

(** *** C3: failures of the worker and [join] *)















(** *** C4: the replies of the discovery server *)

Lemma find_first {A} (f : A -> bool) (l : list A) i x :
  l !! i = Some x -> f x = true ->
  (forall j y, j < i -> l !! j = Some y -> f y = false) ->
  List.find f l = Some x.
Proof.
  revert i. induction l as [|a l IH]; intros i Hi Hx Hbefore; [done|].
  destruct i as [|i]; simpl in *.
  - injection Hi as ->. by rewrite Hx.
  - rewrite (Hbefore 0 a) by (done || lia).
    apply (IH i); [done|done|]. intros j y Hj Hy.
    apply (Hbefore (S j) y); [lia|done].
Qed.

Lemma find_none {A} (f : A -> bool) (l : list A) :
  (forall x, x ∈ l -> f x = false) -> List.find f l = None.
Proof.
  induction l as [|a l IH]; intros H; simpl; [done|].
  rewrite (H a) by (by left). apply IH. intros x Hx. apply H. by right.
Qed.

(** A request reaching the port a server was built on is handled by the
    server's [receive]. *)
Lemma server_port_delivers {U}
    (user_call : nat -> payload -> option (payload -> M U unit) -> M U unit)
    (w : world U) (p : port_ref) (port : CommunicationPort.t)
    (services_data : list payload) (data : payload)
    (respond : payload -> M U unit) :
  ports w !! p = Some port ->
  CommunicationPort._receive_callback port = Some (ServerReceive services_data) ->
  receive user_call p data (Some respond) w
  = DiscoveryServer.receive services_data data respond w.
Proof.
  intros Hp Hcb. unfold receive, bind, get_port. rewrite Hp. simpl.
  by rewrite Hcb.
Qed.

(** C4: [DiscoveryServer.receive] answers every request by one call of the
    reply function: with the [MISSING_KEY_IN_REQUEST] error when the
    request has no ["service_type"] key; otherwise with the
    [SERVICE_UNKNOWN] error when no registry entry has the requested
    service type; otherwise with the first registry entry of that type,
    as it is (locator and, if present, service id).  Nothing is raised by
    the server itself. *)
Theorem discovery_server_reply {U} (services_data : list payload)
    (data : payload) (respond : payload -> M U unit) :
  (data !! "service_type" = None ->
   DiscoveryServer.receive services_data data respond
   = respond {["error" := VDiscoveryError MISSING_KEY_IN_REQUEST]}) /\
  (forall t, data !! "service_type" = Some t ->
     (forall entry, entry ∈ services_data ->
                    entry !! "service_type" <> Some t) ->
     DiscoveryServer.receive services_data data respond
     = respond {["error" := VDiscoveryError SERVICE_UNKNOWN]}) /\
  (forall t i entry, data !! "service_type" = Some t ->
     services_data !! i = Some entry ->
     entry !! "service_type" = Some t ->
     (forall j other, j < i -> services_data !! j = Some other ->
                      other !! "service_type" <> Some t) ->
     DiscoveryServer.receive services_data data respond = respond entry).
Proof.
  unfold DiscoveryServer.receive. split; [by intros ->|]. split.
  - intros t -> Hno. rewrite find_none; [done|].
    intros x Hx. apply bool_decide_eq_false. by apply Hno.
  - intros t i entry -> Hi Ht Hbefore.
    rewrite (find_first _ _ i entry Hi).
    + rewrite bool_decide_eq_false_2; [done|].
      intros ->. by rewrite lookup_empty in Ht.
    + by apply bool_decide_eq_true.
    + intros j y Hj Hy. apply bool_decide_eq_false. by apply (Hbefore j).
Qed.

(** The registry of the discovery tests: a network service, a direct
    service on port 0 and the allocator on port 1. *)
Definition service_tcp_info : payload :=
  {["service_type" := VStr "servicetcp";
    "tcp_port" := VStr "tcp://localhost:8888"]}.
Definition service_direct_info : payload :=
  {["service_type" := VStr "servicedirect"; "service_reference" := VPort 0]}.
Definition allocator_info : payload :=
  {["service_type" := VServiceType ALLOCATOR; "service_reference" := VPort 1]}.
Definition test_registry : list payload :=
  [service_tcp_info; service_direct_info; allocator_info].

(** C4, witness: the three requests of the discovery tests. *)
Lemma discovery_server_reply_witness :
  let respond : payload -> M unit unit := _discovery_handle_response 0 in
  DiscoveryServer.receive test_registry {["test" := VStr "ok"]} respond
  = respond {["error" := VDiscoveryError MISSING_KEY_IN_REQUEST]} /\
  DiscoveryServer.receive test_registry {["service_type" := VStr "toto"]} respond
  = respond {["error" := VDiscoveryError SERVICE_UNKNOWN]} /\
  DiscoveryServer.receive test_registry
    {["service_type" := VServiceType ALLOCATOR]} respond
  = respond allocator_info.
Proof.
  intros respond. split; [|split].
  - apply (discovery_server_reply test_registry {["test" := VStr "ok"]} respond).
    reflexivity.
  - apply (discovery_server_reply test_registry
             {["service_type" := VStr "toto"]} respond) with (t := VStr "toto").
    + reflexivity.
    + intros entry Hin. apply list_elem_of_In in Hin. simpl in Hin.
      destruct Hin as [<-|[<-|[<-|[]]]]; vm_compute; discriminate.
  - apply (discovery_server_reply test_registry
             {["service_type" := VServiceType ALLOCATOR]} respond)
      with (t := VServiceType ALLOCATOR) (i := 2).
    + reflexivity.
    + reflexivity.
    + reflexivity.
    + intros j other Hj Hother.
      destruct j as [|[|j]]; [| |lia]; simpl in Hother;
        injection Hother as <-; vm_compute; discriminate.
Defined.

(** *** C2: a local round trip *)

(** C2: let port A be local-send with target B, and let A and B have
    receive callbacks registered.  Then [A.send(payload)] is the call of
    B's callback on exactly [payload] together with a reply function, and
    that reply function, called with a response while A is as it was,
    is the call of A's callback on exactly that response; both happen
    within [A.send].  (B's own mode plays no part.) *)
Theorem local_round_trip {U}
    (user_call : nat -> payload -> option (payload -> M U unit) -> M U unit)
    (w : world U) (A B : port_ref) (pa pb : CommunicationPort.t)
    (cA cB : nat) (data : payload) :
  ports w !! A = Some pa -> ports w !! B = Some pb ->
  CommunicationPort._communication_mode pa = FUNCTION_CALL_SEND ->
  CommunicationPort._target_port pa = VPort B ->
  CommunicationPort._receive_callback pa = Some (UserFunction cA) ->
  CommunicationPort._receive_callback pb = Some (UserFunction cB) ->
  let reply_fn := fun resp => receive user_call A resp None in
  send user_call A data w = user_call cB data (Some reply_fn) w /\
  (forall resp w', ports w' !! A = Some pa ->
                   reply_fn resp w' = user_call cA resp None w').
Proof.
  intros HA HB Hmode Htarget HcA HcB reply_fn. split.
  - unfold send, bind, get_port. rewrite HA.
    unfold CommunicationPort.is_ready. rewrite Hmode, Htarget. simpl.
    unfold receive at 1. unfold bind, get_port. rewrite HB. simpl.
    by rewrite HcB.
  - intros resp w' HA'. unfold reply_fn, receive, bind, get_port.
    rewrite HA', Hmode, HcA. simpl.
    by destruct (user_call cA resp None w').
Qed.

(** The callbacks of the port tests: function 0 stores what it receives
    as [data_a]; function 1 stores what it receives as [data_b] and, given
    a reply function, replies [{"response": "ok"}]. *)
Definition RESPONSE_MSG : payload := {["response" := VStr "ok"]}.

Definition test_callbacks (f : nat) (data : payload)
    (respond : option (payload -> M (option payload * option payload) unit))
    : M (option payload * option payload) unit :=
  match f with
  | 0 => fun w => Ok tt (mkWorld (ports w) (delegates w) (sent w) (logged w)
                                 (Some data, (user w).2))
  | _ =>
      (fun w => Ok tt (mkWorld (ports w) (delegates w) (sent w) (logged w)
                               ((user w).1, Some data))) ;;;
      match respond with
      | Some respond_function => respond_function RESPONSE_MSG
      | None => ret tt
      end
  end.

(** Port 0 is [port_a] (local-send, targeting port 1), port 1 is [port_b]
    (local-receive). *)
Definition test_ports_world : world (option payload * option payload) :=
  mkWorld
    {[0 := CommunicationPort.mk FUNCTION_CALL_SEND (VPort 1)
             (Some (UserFunction 0)) None false VNone "port_a" false None;
      1 := CommunicationPort.mk FUNCTION_CALL_RECV VNone
             (Some (UserFunction 1)) None false VNone "port_b" false None]}
    ∅ [] [] (None, None).

(** C2, witness: the round trip of the port tests; afterwards [data_b]
    is the request and [data_a] the response. *)
Lemma local_round_trip_witness :
  let data : payload := {["test" := VStr "ok_test2"]} in
  let reply_fn := fun resp => receive test_callbacks 0 resp None in
  (send test_callbacks 0 data test_ports_world
   = test_callbacks 1 data (Some reply_fn) test_ports_world /\
   reply_fn RESPONSE_MSG test_ports_world
   = test_callbacks 0 RESPONSE_MSG None test_ports_world) /\
  exists w', send test_callbacks 0 data test_ports_world = Ok tt w' /\
             user w' = (Some RESPONSE_MSG, Some data).
Proof.
  intros data reply_fn. split.
  - destruct (local_round_trip test_callbacks test_ports_world 0 1
                (CommunicationPort.mk FUNCTION_CALL_SEND (VPort 1)
                   (Some (UserFunction 0)) None false VNone "port_a" false None)
                (CommunicationPort.mk FUNCTION_CALL_RECV VNone
                   (Some (UserFunction 1)) None false VNone "port_b" false None)
                0 1 data) as [Hsend Hreply]; try reflexivity.
    split; [exact Hsend|]. apply Hreply. reflexivity.
  - eexists. split; vm_compute; reflexivity.
Defined.

(** *** C6: readiness and [send] *)

(** [send] on a port that is not ready logs and raises the not-ready
    failure. *)
Lemma send_not_ready {U}
    (user_call : nat -> payload -> option (payload -> M U unit) -> M U unit)
    (w : world U) (p : port_ref) (port : CommunicationPort.t) (data : payload) :
  ports w !! p = Some port ->
  CommunicationPort.is_ready port = false ->
  send user_call p data w
  = Fail (not_ready_error port)
         (mkWorld (ports w) (delegates w) (sent w)
                  (logged w ++ ["you must set target_port"]) (user w)).
Proof.
  intros Hp Hr. unfold send, bind, get_port. rewrite Hp, Hr. reflexivity.
Qed.

(** [send] on a ready port goes on to the delivery. *)
Lemma send_ready {U}
    (user_call : nat -> payload -> option (payload -> M U unit) -> M U unit)
    (w : world U) (p : port_ref) (port : CommunicationPort.t) (data : payload) :
  ports w !! p = Some port ->
  CommunicationPort.is_ready port = true ->
  send user_call p data w
  = match CommunicationPort._communication_mode port,
          CommunicationPort._target_port port with
    | FUNCTION_CALL_SEND, VPort target =>
        receive user_call target data
                (Some (fun resp => receive user_call p resp None)) w
    | _, _ => socket_send p data w
    end.
Proof.
  intros Hp Hr. unfold send, bind, get_port. rewrite Hp, Hr. simpl.
  unfold CommunicationPort.is_ready in Hr.
  destruct (CommunicationPort._communication_mode port) eqn:Hm,
           (CommunicationPort._target_port port) eqn:Ht;
    simpl in *; try done.
Qed.

(** What [is_ready] tests: a local-send port whose target is a port
    instance, or a network-send port whose [_listening] flag is set. *)
Lemma is_ready_iff (port : CommunicationPort.t) :
  CommunicationPort.is_ready port = true <->
  (CommunicationPort._communication_mode port = FUNCTION_CALL_SEND /\
   exists target, CommunicationPort._target_port port = VPort target) \/
  (CommunicationPort._communication_mode port = TCP_SEND /\
   CommunicationPort._listening port = true).
Proof.
  unfold CommunicationPort.is_ready.
  destruct port as [mode target cb cbt listening addr n rc soc]. simpl.
  destruct mode, target, listening; simpl; split; try done;
    try (intros _; left; split; [done|by eexists]);
    try (intros _; by right);
    intros [[? [? ?]]|[? ?]]; done.
Qed.

(** A port built by the constructor in network-send mode has
    [_listening] set, with no target and no connection. *)
Lemma new_network_send_port {U} (w : world U) :
  exists p w', new_port TCP_SEND VNone w = Ok p w' /\
    ports w' !! p
    = Some (CommunicationPort.mk TCP_SEND VNone None None true VNone ""
                                 false None).
Proof.
  eexists _, _. split; [reflexivity|]. simpl. apply lookup_insert_eq.
Qed.

(** C6, the code at the failing input: a network-send port is built and
    its target is never set; no connection was made, yet [is_ready()]
    holds, and [send] does not raise the not-ready failure: it goes on to
    [soc.send] on the socket that was never connected, which does not
    return. *)
Theorem network_send_port_without_target_is_ready
    (user_call : nat -> payload -> option (payload -> M unit unit) -> M unit unit)
    (data : payload) :
  let w0 : world unit := mkWorld ∅ ∅ [] [] tt in
  let port := CommunicationPort.mk TCP_SEND VNone None None true VNone ""
                                   false None in
  exists p w1,
    new_port TCP_SEND VNone w0 = Ok p w1 /\
    ports w1 !! p = Some port /\
    CommunicationPort._target_port port = VNone /\
    CommunicationPort.soc_connected port = None /\
    CommunicationPort.is_ready port = true /\
    send user_call p data w1 = socket_send p data w1 /\
    send user_call p data w1 = Hang /\
    (forall w', send user_call p data w1 <> Fail (not_ready_error port) w').
Proof.
  intros w0 port.
  destruct (new_network_send_port w0) as (p & w1 & Hnew & Hp).
  exists p, w1. split; [done|]. split; [done|]. repeat (split; [done|]).
  rewrite (send_ready user_call w1 p port data Hp eq_refl).
  simpl. unfold socket_send, bind, get_port. rewrite Hp. simpl.
  by repeat split.
Qed.

(** *** C5: the discovery delegate *)

(** C5, the code on every input: [connect_to_service] evaluates
    [CommunicationMode.FUNCTION_CALL] or [CommunicationMode.TCP] first;
    the enum has no such members, so the call raises [AttributeError]
    before any port is built or any request is sent. *)
Theorem connect_to_service_raises_attribute_error {U}
    (user_call : nat -> payload -> option (payload -> M U unit) -> M U unit)
    (d : nat) (service_type : value) (service_handle_response : callable)
    (discovery_port_target : value) (w : world U) :
  connect_to_service user_call d service_type service_handle_response
    discovery_port_target w
  = Fail (Exn AttributeError
              (match discovery_port_target with
               | VPort _ => "FUNCTION_CALL"
               | _ => "TCP"
               end)) w.
Proof. by destruct discovery_port_target. Qed.

(** What lies behind the first failure.  Suppose the two names denoted the
    send modes; this is not the module as written, only a way to run the
    rest of [connect_to_service]. *)
Definition enum_attr_with_short_names (name : string)
    : result CommunicationMode :=
  if String.eqb name "FUNCTION_CALL" then Return FUNCTION_CALL_SEND
  else if String.eqb name "TCP" then Return TCP_SEND
  else CommunicationMode_getattr name.

(** A discovery server on port 0 whose registry was built with
    [make_service_data]: the allocator on port 1 and a network service. *)
Definition served_registry : list payload :=
  [ {["service_type" := VServiceType ALLOCATOR; "service_reference" := VPort 1]};
    {["service_type" := VStr "NET_SVC";
      "service_tcp_port" := VStr "tcp://localhost:8888"]} ].

Definition discovery_world : world unit :=
  mkWorld
    {[0 := CommunicationPort.mk FUNCTION_CALL_RECV VNone
             (Some (ServerReceive served_registry)) None false VNone
             "port_disco" false None;
      1 := CommunicationPort.mk FUNCTION_CALL_RECV VNone
             (Some (UserFunction 1)) None false VNone "allocator_port"
             false None]}
    {[0 := mkDelegate false None]} [] [] tt.

Lemma served_registry_from_make_service_data :
  DiscoveryServer.make_service_data (VServiceType ALLOCATOR) (VPort 1) VNone VNone
  = Return {["service_type" := VServiceType ALLOCATOR;
             "service_reference" := VPort 1]} /\
  DiscoveryServer.make_service_data (VStr "NET_SVC") VNone
    (VStr "tcp://localhost:8888") VNone
  = Return {["service_type" := VStr "NET_SVC";
             "service_tcp_port" := VStr "tcp://localhost:8888"]}.
Proof. split; vm_compute; reflexivity. Qed.

(** With the names resolved, a local-reference reply gives a local-send
    port targeting the reference, with the handler as its callback. *)
Lemma delegate_local_reference_reply :
  exists rp w',
    connect_to_service_with (fun _ _ _ => ret tt) enum_attr_with_short_names
      0 (VServiceType ALLOCATOR) (UserFunction 7) (VPort 0) discovery_world
    = Ok rp w' /\
    ports w' !! rp
    = Some (CommunicationPort.mk FUNCTION_CALL_SEND (VPort 1)
              (Some (UserFunction 7)) None false VNone "" false None).
Proof. eexists _, _. split; vm_compute; reflexivity. Qed.

(** With the names resolved, the transport-address reply of the server,
    keyed ["service_tcp_port"], is not recognised by the delegate, which
    looks for ["tcp_port"]: [ValueError]. *)
Lemma delegate_transport_address_reply :
  exists w',
    connect_to_service_with (fun _ _ _ => ret tt) enum_attr_with_short_names
      0 (VStr "NET_SVC") (UserFunction 7) (VPort 0) discovery_world
    = Fail (Exn ValueError "discovery service answer not not make any sens") w'.
Proof. eexists. vm_compute. reflexivity. Qed.

(** With the names resolved, an error reply is logged and then the
    assignment of the callback to the absent port raises. *)
Lemma delegate_error_reply :
  exists w',
    connect_to_service_with (fun _ _ _ => ret tt) enum_attr_with_short_names
      0 (VStr "toto") (UserFunction 7) (VPort 0) discovery_world
    = Fail (none_has_no_attribute "receive_callback") w' /\
    logged w'
    = ["discovery server answered this: DiscoveryError.SERVICE_UNKNOWN"].
Proof. eexists. split; vm_compute; reflexivity. Qed.

(** * Part III: further properties of the sources *)

(** ** priority_queue.py: the queue as a heap *)

Lemma push_store_unchanged events st :
  (run (map Push events) st).1.1 = st.1 /\
  Permutation (PriorityQueue._pq (run (map Push events) st).1.2)
              (events ++ PriorityQueue._pq st.2) /\
  (run (map Push events) st).2 = [].
Proof.
  revert st. induction events as [|e events IH]; intros [s q]; simpl; [done|].
  destruct (IH (s, PriorityQueue.push s q e)) as (H1 & H2 & H3).
  destruct (run (map Push events) (s, PriorityQueue.push s q e))
    as [[s' q'] outs]. simpl in *.
  split; [done|]. split; [|done].
  rewrite H2. simpl. rewrite ref_lt_key_less, heappush_perm.
  by rewrite Permutation_middle.
Qed.


(** X2: [push] adds the event exactly once and keeps every other entry:
    the new [_pq] is a rearrangement of the old one plus the event. *)
Theorem push_adds_exactly_the_event (s : store) (q : PriorityQueue.t)
    (event : ref) :
  Permutation (PriorityQueue._pq (PriorityQueue.push s q event))
              (event :: PriorityQueue._pq q) /\
  length (PriorityQueue._pq (PriorityQueue.push s q event))
  = S (length (PriorityQueue._pq q)) /\
  PriorityQueue.contains (fun _ r => Nat.eqb r event) s
    (PriorityQueue.push s q event) = true.
Proof.
  assert (Hperm : Permutation
            (PriorityQueue._pq (PriorityQueue.push s q event))
            (event :: PriorityQueue._pq q)).
  { simpl. rewrite ref_lt_key_less. apply heappush_perm. }
  split; [exact Hperm|]. split.
  - by rewrite Hperm.
  - unfold PriorityQueue.contains. apply existsb_exists.
    exists event. split; [|apply Nat.eqb_refl].
    apply list_elem_of_In. rewrite Hperm. by left.
Qed.

(** X3: [empty()] tells whether [pop()] would fail: after any sequence of
    operations it is true exactly when [pop()] raises [IndexError], and
    false exactly when [pop()] returns an event. *)
Theorem empty_iff_pop_raises (ops : list op) (s0 : store) :
  let st := (run ops (s0, PriorityQueue.init)).1 in
  (PriorityQueue.empty st.1 st.2 = true <->
   PriorityQueue.pop st.1 st.2
   = (Raise PriorityQueue.empty_heap_error, PriorityQueue.init)) /\
  (PriorityQueue.empty st.1 st.2 = false <->
   exists e q', PriorityQueue.pop st.1 st.2 = (Return e, q')).
Proof.
  intros st. destruct st as [s q] eqn:Hst. simpl.
  assert (Hok : heap_ok (dtime s) (PriorityQueue._pq q)).
  { pose proof (run_queue_ok ops (s0, PriorityQueue.init)) as H.
    unfold queue_ok in H. fold st in H. rewrite Hst in H. apply H.
    intros i Hi. simpl in Hi. lia. }
  pose proof (pop_spec s q Hok) as Hpop.
  unfold PriorityQueue.empty.
  destruct (PriorityQueue.pop s q) as [[e|ex] q'].
  - destruct Hpop as (He & _ & (dropped & Hperm & _) & _).
    assert (Hf : forallb (fun e => cancelled (s e)) (PriorityQueue._pq q) = false).
    { apply not_true_is_false. intros Hall.
      rewrite forallb_forall in Hall. specialize (Hall e).
      rewrite Hall in He; [done|]. apply list_elem_of_In.
      rewrite Hperm. apply elem_of_app. right. by left. }
    rewrite Hf. split; split; try done. by eexists _, _.
  - destruct Hpop as (-> & Hq' & Hall).
    assert (Ht : forallb (fun e => cancelled (s e)) (PriorityQueue._pq q) = true).
    { apply forallb_forall. intros x Hx. rewrite Forall_forall in Hall.
      apply Hall. by apply list_elem_of_In. }
    rewrite Ht. destruct q' as [pq']. simpl in Hq'. subst pq'.
    split; split; try done. by intros (e & q' & ?).
Qed.



(** ** priority_queue.py: queries and cancellation *)

(** X5: [contains(key)] is true exactly when [get(key)] is not empty, and
    [get(key)] lists, in queue order, exactly the queued events for which
    the key holds. *)
Theorem contains_iff_get_nonempty (key : PriorityQueue.keyfn) (s : store)
    (q : PriorityQueue.t) :
  (PriorityQueue.contains key s q = true <-> PriorityQueue.get key s q <> []) /\
  (forall e, e ∈ PriorityQueue.get key s q <->
             e ∈ PriorityQueue._pq q /\ key s e = true) /\
  sublist (PriorityQueue.get key s q) (PriorityQueue._pq q).
Proof.
  unfold PriorityQueue.contains, PriorityQueue.get.
  split; [|split].
  - induction (PriorityQueue._pq q) as [|a l IH]; simpl; [done|].
    rewrite filter_cons. case_decide as Hk.
    + rewrite Hk. simpl. by split.
    + apply not_true_is_false in Hk. rewrite Hk. simpl. exact IH.
  - intros e. rewrite list_elem_of_filter. tauto.
  - apply sublist_filter.
Qed.

(** What a pass of [cancel] does to the store, for any starting list
    [le]: it appends the events it cancels, all taken from the list it
    walks, and an event is cancelled afterwards exactly when it was
    before or was appended. *)
Lemma cancel_fold_char key l s le :
  exists added,
    (fold_left (PriorityQueue.cancel_step key) l (s, le)).2 = le ++ added /\
    (forall r, r ∈ added -> r ∈ l) /\
    (forall r, cancelled ((fold_left (PriorityQueue.cancel_step key) l (s, le)).1 r)
               = true <-> cancelled (s r) = true \/ r ∈ added).
Proof.
  revert s le. induction l as [|a l IH]; intros s le.
  { exists []. simpl. rewrite app_nil_r. split; [done|]. split.
    - intros r Hr. by apply elem_of_nil in Hr.
    - intros r. split; [by left|]. intros [H|H]; [done|].
      by apply elem_of_nil in H. }
  simpl. destruct (key s a) eqn:Ha.
  - destruct (IH (store_cancel s a) (le ++ [a])) as (added & H1 & H2 & H3).
    exists (a :: added). split; [by rewrite H1, <- app_assoc|]. split.
    + intros r Hr. apply elem_of_cons in Hr as [->|Hr]; [by left|].
      right. by apply H2.
    + intros r. rewrite H3. unfold store_cancel.
      destruct (decide (r = a)) as [->|Hne].
      * split; [intros _; right; by left|intros _; by left].
      * split; (intros [H|H]; [by left|right]).
        -- by right.
        -- apply elem_of_cons in H as [->|H]; done.
  - destruct (IH s le) as (added & H1 & H2 & H3).
    exists added. split; [done|]. split; [|done].
    intros r Hr. right. by apply H2.
Qed.

(** X6: [cancel(key)], for any predicate, returns only queued events,
    cancels exactly the events it returns (an event is cancelled
    afterwards iff it was cancelled before or is returned) and changes no
    [date_time]; and if the predicate's result on an event depends on
    that event only, every queued event for which it holds afterwards is
    cancelled. *)
Theorem cancel_marks_what_it_returns (key : PriorityQueue.keyfn) (s : store)
    (q : PriorityQueue.t) :
  let s' := (PriorityQueue.cancel key s q).1 in
  let le := (PriorityQueue.cancel key s q).2 in
  (forall r, r ∈ le -> r ∈ PriorityQueue._pq q) /\
  (forall r, cancelled (s' r) = true <-> cancelled (s r) = true \/ r ∈ le) /\
  (forall r, date_time (s' r) = date_time (s r)) /\
  (local_key key ->
   forall e, e ∈ PriorityQueue._pq q -> key s' e = true ->
             cancelled (s' e) = true).
Proof.
  intros s' le.
  destruct (cancel_fold_char key (PriorityQueue._pq q) s [])
    as (added & H1 & H2 & H3).
  simpl in H1. fold (PriorityQueue.cancel key s q) in H1, H3.
  fold le in H1. fold s' in H3. subst added.
  split; [done|]. split; [done|]. split.
  - intros r. apply (cancel_fold_dtime key (PriorityQueue._pq q) s [] r).
  - intros Hloc e He. by apply (cancel_fold_settled key _ s [] e).
Qed.

(** Witness: a predicate on the event's own date, on a queue of three
    events; afterwards the two events due before 6 are cancelled. *)
Lemma cancel_marks_what_it_returns_witness :
  let key : PriorityQueue.keyfn := fun s r => (date_time (s r) <? 6)%Z in
  let q := (run [Push 0; Push 1; Push 2]
                (store_5_3_7, PriorityQueue.init)).1.2 in
  let s' := (PriorityQueue.cancel key store_5_3_7 q).1 in
  local_key key /\
  (forall e, e ∈ PriorityQueue._pq q -> key s' e = true ->
             cancelled (s' e) = true).
Proof.
  intros key q s'.
  assert (Hloc : local_key key).
  { intros s1 s2 r H. unfold key. by rewrite H. }
  split; [exact Hloc|].
  apply (cancel_marks_what_it_returns key store_5_3_7 q). exact Hloc.
Defined.

Lemma cancel_fold_flag_free key l (s0 s : store) le :
  (forall s1 x r, key (store_cancel s1 x) r = key s1 r) ->
  (forall r, key s r = key s0 r) ->
  (fold_left (PriorityQueue.cancel_step key) l (s, le)).2
  = le ++ filter (fun e => key s0 e = true) l.
Proof.
  intros Hkey. revert s le. induction l as [|a l IH]; intros s le Hs; simpl.
  { by rewrite app_nil_r. }
  rewrite (Hs a), filter_cons. destruct (key s0 a) eqn:Hk.
  - rewrite decide_True by done. rewrite IH; [by rewrite <- app_assoc|].
    intros r. by rewrite Hkey.
  - rewrite decide_False by (by intros ?). by apply IH.
Qed.

(** X7: For a key that does not look at cancelled flags (its result is the
    same after any event has been cancelled), [cancel(key)] returns
    exactly what [get(key)] returned just before, in the same order. *)
Theorem cancel_returns_what_get_lists (key : PriorityQueue.keyfn) (s : store)
    (q : PriorityQueue.t) :
  (forall s1 x r, key (store_cancel s1 x) r = key s1 r) ->
  (PriorityQueue.cancel key s q).2 = PriorityQueue.get key s q.
Proof.
  intros Hkey. unfold PriorityQueue.cancel, PriorityQueue.get.
  by rewrite (cancel_fold_flag_free key _ s s []).
Qed.

(** Witness: cancelling by identity in a queue of three events. *)
Lemma cancel_returns_what_get_lists_witness :
  let key : PriorityQueue.keyfn := fun _ r => Nat.eqb r 1 in
  let q := (run [Push 0; Push 1; Push 2]
                (store_5_3_7, PriorityQueue.init)).1.2 in
  (forall s1 x r, key (store_cancel s1 x) r = key s1 r) /\
  (PriorityQueue.cancel key store_5_3_7 q).2
  = PriorityQueue.get key store_5_3_7 q.
Proof.
  intros key q. split; [by intros|].
  apply (cancel_returns_what_get_lists key store_5_3_7 q). by intros.
Defined.

Lemma step_cancelled_mono o st r :
  cancelled (st.1 r) = true -> cancelled ((step o st).1.1 r) = true.
Proof.
  destruct st as [s q]. destruct o as [e|key|]; simpl; [done| |].
  - apply cancel_fold_mono.
  - by destruct (PriorityQueue.pop s q).
Qed.

Lemma run_returned_live ops st e :
  queue_ok st -> e ∈ returned (run ops st).2 -> cancelled (st.1 e) = false.
Proof.
  revert st. induction ops as [|o ops IH]; intros st Hok He; simpl in He.
  { by apply elem_of_nil in He. }
  pose proof (step_queue_ok o st Hok) as Hok1.
  pose proof (step_cancelled_mono o st e) as Hmono.
  specialize (IH (step o st).1 Hok1).
  destruct st as [s q]. destruct o as [x|key|]; simpl in *.
  - destruct (run ops (s, PriorityQueue.push s q x)) as [st2 outs].
    by apply IH.
  - destruct (run ops _) as [st2 outs] eqn:Hr in He, IH. simpl in *.
    specialize (IH He).
    destruct (cancelled (s e)) eqn:Hc; [|done].
    clash_bool (Hmono eq_refl) IH.
  - pose proof (pop_spec s q Hok) as Hpop.
    destruct (PriorityQueue.pop s q) as [[x|ex] q']; simpl in *.
    + destruct (run ops (s, q')) as [st2 outs]. simpl in *.
      apply elem_of_cons in He as [->|He]; [apply Hpop|by apply IH].
    + destruct (run ops (s, q')) as [st2 outs]. by apply IH.
Qed.

(** X8: Once an event's cancelled flag is set, no later [pop()] returns it,
    whatever pushes, cancels and pops follow: the events returned after
    some point were all uncancelled at that point. *)
Theorem cancelled_event_is_never_popped_later (ops ops' : list op)
    (s0 : store) (e : ref) :
  let st := (run ops (s0, PriorityQueue.init)).1 in
  cancelled (st.1 e) = true -> e ∉ returned (run ops' st).2.
Proof.
  intros st Hc Hin.
  apply (run_returned_live ops' st e) in Hin.
  - clash_bool Hc Hin.
  - apply (run_queue_ok ops (s0, PriorityQueue.init)).
    intros i Hi. simpl in Hi. lia.
Qed.

(** Witness: event 1 is cancelled while queued, then pushed again and
    the queue popped three times. *)
Lemma cancelled_event_is_never_popped_later_witness :
  let ops := [Push 0; Push 1; Cancel (fun _ r => Nat.eqb r 1)] in
  let ops' := [Push 1; Pop; Pop; Pop] in
  let st := (run ops (store_5_3_7, PriorityQueue.init)).1 in
  cancelled (st.1 1) = true /\ 1 ∉ returned (run ops' st).2.
Proof.
  intros ops ops' st. split; [reflexivity|].
  apply (cancelled_event_is_never_popped_later ops ops' store_5_3_7 1).
  reflexivity.
Defined.

(** ** event_interface.py: the total order on events *)

(** Of [a < b], [a == b] and [b < a] exactly one holds. *)
Definition trichotomous {A} (lt eq : A -> A -> bool) : Prop :=
  forall a b,
    (lt a b = true /\ eq a b = false /\ lt b a = false) \/
    (lt a b = false /\ eq a b = true /\ lt b a = false) \/
    (lt a b = false /\ eq a b = false /\ lt b a = true).

Definition transitive_bool {A} (r : A -> A -> bool) : Prop :=
  forall a b c, r a b = true -> r b c = true -> r a c = true.

(** X9: The comparisons [functools.total_ordering] derives from [__lt__]
    and [__eq__] make a total order provided [__lt__] and [__eq__]
    themselves are trichotomous and transitive, as those of events are
    when their [date_time] values lie on one time line: then [a > b] is
    [b < a], [a >= b] is [b <= a], [a != b] is [a < b or b < a], any two
    objects are comparable by [<=], [<=] is transitive and antisymmetric
    up to [==], and exactly one of [a < b], [a == b], [a > b] holds. *)
Theorem events_are_totally_ordered {A} (lt eq : A -> A -> bool) :
  trichotomous lt eq -> transitive_bool lt -> transitive_bool eq ->
  forall a b c : A,
    let gt := total_ordering._gt_from_lt lt eq in
    let le := total_ordering._le_from_lt lt eq in
    let ge := total_ordering._ge_from_lt lt in
    let ne := total_ordering.ne eq in
    gt a b = lt b a /\
    ge a b = le b a /\
    ne a b = lt a b || lt b a /\
    le a b || le b a = true /\
    implb (le a b && le b c) (le a c) = true /\
    le a b && le b a = eq a b /\
    ((lt a b, eq a b, gt a b) = (true, false, false) \/
     (lt a b, eq a b, gt a b) = (false, true, false) \/
     (lt a b, eq a b, gt a b) = (false, false, true)).
Proof.
  intros Htri Hlt Heq a b c gt le ge ne.
  unfold gt, le, ge, ne, total_ordering._gt_from_lt, total_ordering._le_from_lt,
    total_ordering._ge_from_lt, total_ordering.ne.
  pose proof (Hlt a b c) as Hl1. pose proof (Hlt c a b) as Hl2.
  pose proof (Hlt b c a) as Hl3.
  pose proof (Heq a b c) as He1. pose proof (Heq b a c) as He2.
  pose proof (Heq c b a) as He3.
  destruct (Htri a b) as [(H1 & H2 & H3)|[(H1 & H2 & H3)|(H1 & H2 & H3)]];
  destruct (Htri b c) as [(H4 & H5 & H6)|[(H4 & H5 & H6)|(H4 & H5 & H6)]];
  destruct (Htri a c) as [(H7 & H8 & H9)|[(H7 & H8 & H9)|(H7 & H8 & H9)]];
  destruct (Htri b a) as [(K1 & K2 & K3)|[(K1 & K2 & K3)|(K1 & K2 & K3)]];
  rewrite ?H1, ?H2, ?H3, ?H4, ?H5, ?H6, ?H7, ?H8, ?H9, ?K1, ?K2, ?K3 in *;
  simpl; try discriminate;
  try (specialize (Hl1 eq_refl eq_refl); discriminate);
  try (specialize (Hl2 eq_refl eq_refl); discriminate);
  try (specialize (Hl3 eq_refl eq_refl); discriminate);
  try (specialize (He1 eq_refl eq_refl); discriminate);
  try (specialize (He2 eq_refl eq_refl); discriminate);
  try (specialize (He3 eq_refl eq_refl); discriminate);
  repeat split; auto.
Qed.

(** Witness: the events of the model, whose dates are integers. *)
Lemma events_are_totally_ordered_witness :
  trichotomous event_lt event_eq /\
  transitive_bool event_lt /\ transitive_bool event_eq /\
  forall a b c : AbstractEvent,
    event_gt a b = event_lt b a /\
    event_ge a b = event_le b a /\
    event_ne a b = event_lt a b || event_lt b a /\
    event_le a b || event_le b a = true /\
    implb (event_le a b && event_le b c) (event_le a c) = true /\
    event_le a b && event_le b a = event_eq a b /\
    ((event_lt a b, event_eq a b, event_gt a b) = (true, false, false) \/
     (event_lt a b, event_eq a b, event_gt a b) = (false, true, false) \/
     (event_lt a b, event_eq a b, event_gt a b) = (false, false, true)).
Proof.
  assert (Htri : trichotomous event_lt event_eq).
  { intros a b. unfold event_lt, event_eq.
    destruct (Z.ltb_spec (date_time a) (date_time b)),
             (Z.eqb_spec (date_time a) (date_time b)),
             (Z.ltb_spec (date_time b) (date_time a)); try lia; auto. }
  assert (Hlt : transitive_bool event_lt).
  { intros a b c. unfold event_lt. rewrite !Z.ltb_lt. lia. }
  assert (Heq : transitive_bool event_eq).
  { intros a b c. unfold event_eq. rewrite !Z.eqb_eq. lia. }
  split; [exact Htri|]. split; [exact Hlt|]. split; [exact Heq|].
  intros a b c.
  exact (events_are_totally_ordered event_lt event_eq Htri Hlt Heq a b c).
Defined.

(** Without trichotomy the derived [>] is not the converse of [<]: for
    two objects with [a < b], [b < a], [a == b] and [b == a] all false,
    both [a > b] and [b > a] hold, and neither [a <= b] nor [b <= a]. *)
Lemma derived_comparisons_of_incomparable_objects {A}
    (lt eq : A -> A -> bool) (a b : A) :
  lt a b = false -> lt b a = false -> eq a b = false -> eq b a = false ->
  total_ordering._gt_from_lt lt eq a b = true /\
  total_ordering._gt_from_lt lt eq b a = true /\
  total_ordering._le_from_lt lt eq a b = false /\
  total_ordering._le_from_lt lt eq b a = false.
Proof.
  intros H1 H2 H3 H4.
  unfold total_ordering._gt_from_lt, total_ordering._le_from_lt,
    total_ordering.ne.
  by rewrite H1, H2, H3, H4.
Qed.

(** ** exception_threading.py: what [run] lets through *)

(** X10: The only failure that leaves [run] is a [NotImplementedError] of the
    run body; and when [run] returns on a thread that had no failure
    stored, [join] returns normally exactly when the run body did. *)
Theorem run_raises_only_not_implemented_error
    (user_ctor : string -> string -> result exn)
    (body : result unit) (name : string) :
  let th := ExceptionThread.init name in
  (forall e, ExceptionThread.run body th = Raise e ->
             body = Raise e /\ exn_cls e = NotImplementedError) /\
  (forall th', ExceptionThread.run body th = Return th' ->
               (ExceptionThread.join user_ctor th' = Return tt <->
                exists u, body = Return u)).
Proof.
  intros th. unfold ExceptionThread.run. destruct body as [u|e].
  - split; [done|]. intros th' [= <-]. split; [by eexists|done].
  - unfold ExceptionThread.is_NotImplementedError.
    case_bool_decide as Hcls.
    + split; [|done]. by intros e' [= <-].
    + split; [done|]. intros th' [= <-]. split; [|by intros [u ?]].
      unfold ExceptionThread.join. simpl.
      destruct (ExceptionThread.instantiate _ _ _); [done|].
      by destruct (bool_decide _).
Qed.

(** Witness: a body that returns, one that raises [ValueError], and one
    that raises [NotImplementedError]. *)
Lemma run_raises_only_not_implemented_error_witness :
  let ctor : string -> string -> result exn := fun n msg => Return (Exn (UserError n) msg) in
  let th := ExceptionThread.init "ServiceThread" in
  (ExceptionThread.run (Return tt) th = Return th /\
   ExceptionThread.join ctor th = Return tt) /\
  (ExceptionThread.run (Raise (Exn NotImplementedError "todo")) th
   = Raise (Exn NotImplementedError "todo") /\
   exn_cls (Exn NotImplementedError "todo") = NotImplementedError).
Proof.
  intros ctor th.
  destruct (run_raises_only_not_implemented_error ctor (Return tt)
              "ServiceThread") as [_ H2].
  destruct (run_raises_only_not_implemented_error ctor
              (Raise (Exn NotImplementedError "todo")) "ServiceThread")
    as [H1 _].
  split.
  - split; [reflexivity|]. apply (H2 th); [reflexivity|]. by exists tt.
  - split; [reflexivity|]. apply (H1 _ eq_refl).
Defined.

(** ** service.py: the asynchronous path *)

(** The service [sv] with [q] as its event queue. *)
Definition with_queue (sv : Service.t) (q : PriorityQueue.t) : Service.t :=
  Service.mk (Service._service_mode sv) (Some q) (Service.thread sv)
             (Service.started sv).

(** [add_event] called for each event of a list in turn. *)
Fixpoint add_events {X} (process_event : ref -> store -> X -> result X)
    (sv : Service.t) (s : store) (x : X) (events : list ref)
    : result (Service.t * X) :=
  match events with
  | [] => Return (sv, x)
  | e :: rest =>
      match Service.add_event process_event sv s x e with
      | Return (sv', x') => add_events process_event sv' s x' rest
      | Raise err => Raise err
      end
  end.

Lemma add_event_async_eq {X} (process_event : ref -> store -> X -> result X)
    (sv : Service.t) (q : PriorityQueue.t) (s : store) (x : X) (event : ref) :
  Service._service_mode sv = ASYNC ->
  Service._event_queue sv = Some q ->
  Service.add_event process_event sv s x event
  = Return (with_queue sv (PriorityQueue.push s q event), x).
Proof.
  intros Hmode Hq. unfold Service.add_event, Service.is_async, with_queue.
  rewrite Hmode, Hq. reflexivity.
Qed.

(** X11: In asynchronous mode [add_event] only queues: whatever
    [process_event] is, it is not called (the collaborator's state is
    returned unchanged); the queue gains the event and nothing else, and
    if the event is not cancelled the queue is not [empty()] afterwards. *)
Theorem async_add_event_only_queues {X}
    (process_event : ref -> store -> X -> result X)
    (sv : Service.t) (q : PriorityQueue.t) (s : store) (x : X) (event : ref) :
  Service._service_mode sv = ASYNC ->
  Service._event_queue sv = Some q ->
  Service.add_event process_event sv s x event
  = Return (with_queue sv (PriorityQueue.push s q event), x) /\
  Permutation (PriorityQueue._pq (PriorityQueue.push s q event))
              (event :: PriorityQueue._pq q) /\
  (cancelled (s event) = false ->
   PriorityQueue.empty s (PriorityQueue.push s q event) = false).
Proof.
  intros Hmode Hq.
  assert (Hperm : Permutation
            (PriorityQueue._pq (PriorityQueue.push s q event))
            (event :: PriorityQueue._pq q)).
  { simpl. rewrite ref_lt_key_less. apply heappush_perm. }
  split; [|split; [exact Hperm|]].
  - by apply add_event_async_eq.
  - intros Hc. unfold PriorityQueue.empty. apply not_true_is_false.
    rewrite forallb_forall. intros Hall. specialize (Hall event).
    rewrite Hall in Hc; [done|]. apply list_elem_of_In. rewrite Hperm. by left.
Qed.

(** Witness: a new asynchronous service and the event due at 5; the
    [process_event] given would fail if it were called. *)
Lemma async_add_event_only_queues_witness :
  let failing : ref -> store -> unit -> result unit :=
    fun _ _ _ => Raise (Exn ValueError "called") in
  Service.add_event failing (Service.init ASYNC) store_5_3_7 tt 0
  = Return (with_queue (Service.init ASYNC)
              (PriorityQueue.push store_5_3_7 PriorityQueue.init 0), tt) /\
  PriorityQueue.empty store_5_3_7
    (PriorityQueue.push store_5_3_7 PriorityQueue.init 0) = false.
Proof.
  intros failing.
  destruct (async_add_event_only_queues failing (Service.init ASYNC)
              PriorityQueue.init store_5_3_7 tt 0 eq_refl eq_refl)
    as (H1 & _ & H3).
  split; [exact H1|]. apply H3. reflexivity.
Defined.

Lemma add_events_async {X} (process_event : ref -> store -> X -> result X)
    sv q s x events :
  Service._service_mode sv = ASYNC ->
  add_events process_event (with_queue sv q) s x events
  = Return (with_queue sv (run (map Push events) (s, q)).1.2, x).
Proof.
  intros Hmode. revert q. induction events as [|e events IH]; intros q.
  { reflexivity. }
  cbn [add_events map run step].
  rewrite (add_event_async_eq process_event (with_queue sv q) q s x e Hmode
             eq_refl).
  change (with_queue (with_queue sv q) (PriorityQueue.push s q e))
    with (with_queue sv (PriorityQueue.push s q e)).
  rewrite IH. by destruct (run (map Push events) _) as [[s' q'] outs].
Qed.

Lemma loop_turns_are_pops n s sv q x :
  heap_ok (dtime s) (PriorityQueue._pq q) ->
  loop_turns n s (with_queue sv q) x
  = Return (with_queue sv (run (repeat Pop n) (s, q)).1.2,
            x ++ returned (run (repeat Pop n) (s, q)).2).
Proof.
  revert q x. induction n as [|n IH]; intros q x Hok.
  { simpl. by rewrite app_nil_r. }
  cbn [loop_turns repeat run step]. unfold DummyService.loop_turn.
  cbn [with_queue Service._event_queue].
  pose proof (pop_spec s q Hok) as Hpop.
  destruct (PriorityQueue.pop s q) as [[ev|ex] q'].
  - destruct Hpop as (_ & Hok' & _).
    unfold DummyService.process_event.
    change (Service.mk _ (Some q') _ _) with (with_queue sv q').
    rewrite (IH q' (x ++ [ev]) Hok').
    destruct (run (repeat Pop n) (s, q')) as [[s' q''] outs]. simpl.
    by rewrite <- app_assoc.
  - destruct Hpop as (-> & Hq' & _).
    assert (Hok' : heap_ok (dtime s) (PriorityQueue._pq q')).
    { intros i Hi. rewrite Hq' in Hi. simpl in Hi. lia. }
    rewrite bool_decide_eq_true_2 by done.
    change (Service.mk _ (Some q') _ _) with (with_queue sv q').
    rewrite (IH q' x Hok').
    by destruct (run (repeat Pop n) (s, q')) as [[s' q''] outs].
Qed.


(** ** communication_port.py: sending and receiving at the edges *)

(** X14: [send] on a port in a receive mode, or on a local-send port whose
    target is not a port instance, always raises the not-ready failure:
    nothing is delivered or handed to a socket, only the error is logged.
    On any port that is not local-send the outcome of [send] is that
    failure or, on a ready port, the outcome of [soc.send], which does not
    return when the socket was never connected; so the mode error at the
    end of [send] is never raised. *)
Theorem send_on_unready_port {U}
    (user_call : nat -> payload -> option (payload -> M U unit) -> M U unit)
    (w : world U) (p : port_ref) (port : CommunicationPort.t) (data : payload) :
  ports w !! p = Some port ->
  let failed :=
    Fail (not_ready_error port)
         (mkWorld (ports w) (delegates w) (sent w)
                  (logged w ++ ["you must set target_port"]) (user w)) in
  (CommunicationPort._communication_mode port = FUNCTION_CALL_RECV \/
   CommunicationPort._communication_mode port = TCP_RECV \/
   (CommunicationPort._communication_mode port = FUNCTION_CALL_SEND /\
    forall t, CommunicationPort._target_port port <> VPort t) ->
   send user_call p data w = failed) /\
  (CommunicationPort._communication_mode port <> FUNCTION_CALL_SEND ->
   send user_call p data w = failed \/
   (CommunicationPort.is_ready port = true /\
    send user_call p data w = socket_send p data w /\
    (CommunicationPort.soc_connected port = None ->
     send user_call p data w = Hang))).
Proof.
  intros Hp failed. split.
  - intros Hmode. apply (send_not_ready user_call w p port data Hp).
    unfold CommunicationPort.is_ready.
    destruct Hmode as [Hm | [Hm | [Hm Ht]]]; rewrite Hm.
    + by destruct (CommunicationPort._target_port port).
    + by destruct (CommunicationPort._target_port port).
    + destruct (CommunicationPort._target_port port) as [| | | | |t] eqn:E;
        try done.
      by destruct (Ht t).
  - intros Hmode.
    destruct (CommunicationPort.is_ready port) eqn:Hr.
    + right. split; [done|].
      rewrite (send_ready user_call w p port data Hp Hr).
      assert (Hs : match CommunicationPort._communication_mode port,
                         CommunicationPort._target_port port with
                   | FUNCTION_CALL_SEND, VPort target =>
                       receive user_call target data
                         (Some (fun resp => receive user_call p resp None)) w
                   | _, _ => socket_send p data w
                   end = socket_send p data w).
      { by destruct (CommunicationPort._communication_mode port). }
      rewrite Hs. split; [done|].
      intros Hsoc. unfold socket_send, bind, get_port. by rewrite Hp, Hsoc.
    + left. by apply send_not_ready.
Qed.

(** Witness: [send] on [port_b] of the port tests, a local-receive port,
    raises the failure; on a network-send port built without a target it
    does not return. *)
Lemma send_on_unready_port_witness :
  let data : payload := {["x" := VInt 1]} in
  let port := CommunicationPort.mk TCP_SEND VNone None None true VNone ""
                                   false None in
  let w : world unit := mkWorld {[7 := port]} ∅ [] [] tt in
  send test_callbacks 1 data test_ports_world
  = Fail (Exn RuntimeError "port_b: communication ports are not ready")
         (mkWorld (ports test_ports_world) ∅ []
                  ["you must set target_port"] (None, None)) /\
  send (fun _ _ _ => ret tt) 7 data w = Hang.
Proof.
  intros data port w.
  destruct (send_on_unready_port test_callbacks test_ports_world 1
              (CommunicationPort.mk FUNCTION_CALL_RECV VNone
                 (Some (UserFunction 1)) None false VNone "port_b" false None)
              data eq_refl) as [H1 _].
  destruct (send_on_unready_port (fun _ _ _ => ret tt) w 7 port data eq_refl)
    as [_ H2].
  split; [apply H1; by left|].
  destruct H2 as [H|(_ & _ & H)]; [discriminate|discriminate H|by apply H].
Defined.

(** X15: A local-send port is not ready when it is built, and ready once its
    target has been set to a port; building it leaves every other port as
    it was. *)
Theorem local_send_port_becomes_ready {U} (w : world U) (b : port_ref) :
  exists p w1 w2 port1 port2,
    new_port FUNCTION_CALL_SEND VNone w = Ok p w1 /\
    ports w !! p = None /\
    (forall r, r <> p -> ports w1 !! r = ports w !! r) /\
    ports w1 !! p = Some port1 /\
    CommunicationPort.is_ready port1 = false /\
    set_target_port p (VPort b) w1 = Ok tt w2 /\
    ports w2 !! p = Some port2 /\
    CommunicationPort._target_port port2 = VPort b /\
    CommunicationPort.is_ready port2 = true.
Proof.
  set (p := fresh (dom (ports w))).
  set (port1 := CommunicationPort.mk FUNCTION_CALL_SEND VNone None None false
                  VNone "" false None).
  set (w1 := mkWorld (<[p := port1]> (ports w)) (delegates w) (sent w)
                     (logged w) (user w)).
  set (port2 := CommunicationPort.set_target (VPort b) None port1).
  exists p, w1,
    (mkWorld (<[p := port2]> (ports w1)) (delegates w) (sent w) (logged w)
             (user w)), port1, port2.
  split; [reflexivity|]. split.
  { apply not_elem_of_dom. apply is_fresh. }
  split; [intros r Hr; simpl; by rewrite lookup_insert_ne|].
  assert (H1 : ports w1 !! p = Some port1) by apply lookup_insert_eq.
  split; [exact H1|]. split; [reflexivity|]. split.
  { unfold set_target_port, bind, get_port, update_port. rewrite H1. simpl.
    rewrite lookup_insert_eq. reflexivity. }
  split; [apply lookup_insert_eq|]. by split.
Qed.

(** X16: A delivery without a reply function calls the receive callback once
    on a port in network-send or either local mode, and does nothing at
    all on a network-receive port, registered callback or not. *)
Theorem receive_without_reply {U}
    (user_call : nat -> payload -> option (payload -> M U unit) -> M U unit)
    (w : world U) (p : port_ref) (port : CommunicationPort.t) (data : payload) :
  ports w !! p = Some port ->
  receive user_call p data None w
  = if bool_decide (CommunicationPort._communication_mode port = TCP_RECV)
    then Ok tt w
    else call user_call (CommunicationPort._receive_callback port) data None w.
Proof.
  intros Hp. unfold receive, bind, get_port. rewrite Hp.
  destruct (CommunicationPort._communication_mode port); simpl;
    try done;
    by destruct (call user_call _ data None w) as [[] ?| |].
Qed.

(** Witness: a network-receive port with a callback registered. *)
Lemma receive_without_reply_witness :
  let port := CommunicationPort.mk TCP_RECV VNone (Some (UserFunction 0))
                None false (VStr "tcp://localhost:5668") "port_b" false None in
  let w : world (option payload * option payload) :=
    mkWorld {[0 := port]} ∅ [] [] (None, None) in
  receive test_callbacks 0 RESPONSE_MSG None w = Ok tt w.
Proof.
  intros port w.
  apply (receive_without_reply test_callbacks w 0 port RESPONSE_MSG).
  reflexivity.
Defined.

(** X17: A request sent from a local-send port to a target port on which no
    receive callback was registered raises [TypeError] in the sender:
    nothing is delivered and the sender's own callback is not called. *)
Theorem send_to_port_without_callback {U}
    (user_call : nat -> payload -> option (payload -> M U unit) -> M U unit)
    (w : world U) (A B : port_ref) (pa pb : CommunicationPort.t)
    (data : payload) :
  ports w !! A = Some pa -> ports w !! B = Some pb ->
  CommunicationPort._communication_mode pa = FUNCTION_CALL_SEND ->
  CommunicationPort._target_port pa = VPort B ->
  CommunicationPort._receive_callback pb = None ->
  send user_call A data w
  = Fail (Exn TypeError "'NoneType' object is not callable") w.
Proof.
  intros HA HB Hmode Htarget Hcb.
  assert (Hr : CommunicationPort.is_ready pa = true).
  { unfold CommunicationPort.is_ready. by rewrite Hmode, Htarget. }
  rewrite (send_ready user_call w A pa data HA Hr), Hmode, Htarget.
  unfold receive, bind, get_port. rewrite HB, Hcb. reflexivity.
Qed.

(** Witness: [port_a] targets a port whose callback was never set. *)
Lemma send_to_port_without_callback_witness :
  let pa := CommunicationPort.mk FUNCTION_CALL_SEND (VPort 1)
              (Some (UserFunction 0)) None false VNone "port_a" false None in
  let pb := CommunicationPort.mk FUNCTION_CALL_RECV VNone None None false
              VNone "port_b" false None in
  let w : world (option payload * option payload) :=
    mkWorld {[0 := pa; 1 := pb]} ∅ [] [] (None, None) in
  send test_callbacks 0 RESPONSE_MSG w
  = Fail (Exn TypeError "'NoneType' object is not callable") w.
Proof.
  intros pa pb w.
  apply (send_to_port_without_callback test_callbacks w 0 1 pa pb);
    reflexivity.
Defined.

(** ** discovery.py: registry entries and requests over a local port *)

(** The one reply the server gives to a request. *)
Lemma server_single_reply (services_data : list payload) (data : payload) :
  exists reply,
    (forall U (respond : payload -> M U unit),
        DiscoveryServer.receive services_data data respond = respond reply) /\
    match data !! "service_type" with
    | None => reply = DiscoveryServer.error_reply MISSING_KEY_IN_REQUEST
    | Some t =>
        (reply ∈ services_data /\ reply !! "service_type" = Some t) \/
        (reply = DiscoveryServer.error_reply SERVICE_UNKNOWN /\
         forall entry, entry ∈ services_data ->
                       entry !! "service_type" <> Some t)
    end.
Proof.
  unfold DiscoveryServer.receive.
  destruct (data !! "service_type") as [t|]; [|by eexists].
  destruct (List.find _ _) as [res|] eqn:Hfind.
  - apply List.find_some in Hfind as [Hin Hm].
    apply bool_decide_eq_true in Hm.
    exists res. split.
    + intros U respond. rewrite bool_decide_eq_false_2; [done|].
      intros ->. by rewrite lookup_empty in Hm.
    + left. split; [by apply list_elem_of_In|done].
  - eexists. split; [done|]. right. split; [done|].
    intros entry Hin. apply list_elem_of_In in Hin.
    pose proof (List.find_none _ _ Hfind entry Hin) as Hm.
    by apply bool_decide_eq_false in Hm.
Qed.

(** X18: A discovery round trip over local ports: once a server has been built
    on port D, a request sent from a local-send port A that targets D ends
    in one call of A's callback, on the server's reply: the
    missing-key error, or a registry entry of the requested type, or the
    unknown-service error when the registry has no entry of that type. *)
Theorem local_discovery_round_trip {U}
    (user_call : nat -> payload -> option (payload -> M U unit) -> M U unit)
    (w : world U) (A D : port_ref) (pa pd : CommunicationPort.t) (cA : nat)
    (services_data : list payload) (data : payload) :
  ports w !! A = Some pa -> ports w !! D = Some pd -> A <> D ->
  CommunicationPort._communication_mode pa = FUNCTION_CALL_SEND ->
  CommunicationPort._target_port pa = VPort D ->
  CommunicationPort._receive_callback pa = Some (UserFunction cA) ->
  exists reply w1,
    DiscoveryServer.init services_data D w = Ok tt w1 /\
    send user_call A data w1 = user_call cA reply None w1 /\
    match data !! "service_type" with
    | None => reply = DiscoveryServer.error_reply MISSING_KEY_IN_REQUEST
    | Some t =>
        (reply ∈ services_data /\ reply !! "service_type" = Some t) \/
        (reply = DiscoveryServer.error_reply SERVICE_UNKNOWN /\
         forall entry, entry ∈ services_data ->
                       entry !! "service_type" <> Some t)
    end.
Proof.
  intros HA HD Hne Hmode Htarget HcA.
  destruct (server_single_reply services_data data) as (reply & Hreply & Hchar).
  set (pd' := CommunicationPort.set_receive_callback
                (Some (ServerReceive services_data)) pd).
  set (w1 := mkWorld (<[D := pd']> (ports w)) (delegates w) (sent w)
                     (logged w) (user w)).
  exists reply, w1. split.
  { unfold DiscoveryServer.init, update_port. by rewrite HD. }
  split; [|exact Hchar].
  assert (HA1 : ports w1 !! A = Some pa).
  { simpl. by rewrite lookup_insert_ne. }
  assert (HD1 : ports w1 !! D = Some pd') by apply lookup_insert_eq.
  assert (Hr : CommunicationPort.is_ready pa = true).
  { unfold CommunicationPort.is_ready. by rewrite Hmode, Htarget. }
  rewrite (send_ready user_call w1 A pa data HA1 Hr), Hmode, Htarget.
  rewrite (server_port_delivers user_call w1 D pd' services_data data _ HD1 eq_refl).
  rewrite Hreply.
  unfold receive, bind, get_port. rewrite HA1, Hmode, HcA. simpl.
  by destruct (user_call cA reply None w1) as [[] ?| |].
Qed.

(** Witness: the source port of the discovery tests asks the server on
    port 1 for the allocator; function 0 stores the reply as [data_a]. *)
Lemma local_discovery_round_trip_witness :
  let pa := CommunicationPort.mk FUNCTION_CALL_SEND (VPort 1)
              (Some (UserFunction 0)) None false VNone "port_source" false None in
  let pd := CommunicationPort.mk FUNCTION_CALL_RECV VNone None None false
              VNone "port_disco" false None in
  let w : world (option payload * option payload) :=
    mkWorld {[0 := pa; 1 := pd]} ∅ [] [] (None, None) in
  let data : payload := {["service_type" := VServiceType ALLOCATOR]} in
  exists reply w1,
    DiscoveryServer.init test_registry 1 w = Ok tt w1 /\
    send test_callbacks 0 data w1 = test_callbacks 0 reply None w1 /\
    reply ∈ test_registry.
Proof.
  intros pa pd w data.
  destruct (local_discovery_round_trip test_callbacks w 0 1 pa pd 0
              test_registry data)
    as (reply & w1 & H1 & H2 & H3); try reflexivity; [discriminate|].
  exists reply, w1. split; [exact H1|]. split; [exact H2|].
  change (data !! "service_type") with (Some (VServiceType ALLOCATOR)) in H3.
  destruct H3 as [[Hin _]|[_ Hno]]; [exact Hin|].
  exfalso. apply (Hno allocator_info); [|reflexivity].
  right. right. left.
Defined.

(** X19: [make_service_data] fails exactly when the service type is falsy or
    both locators are given; otherwise the entry carries the service
    type, exactly one of the keys ["service_reference"] and
    ["service_tcp_port"] (the reference when one is given, else the
    address, even when that is [None]), and ["service_id"] exactly when
    the id is truthy. *)
Theorem make_service_data_entry
    (service_type service_reference service_tcp_port service_id : value) :
  match DiscoveryServer.make_service_data service_type service_reference
          service_tcp_port service_id with
  | Raise e =>
      exn_cls e = ValueError /\
      (truthy service_type = false \/
       (truthy service_tcp_port = true /\ truthy service_reference = true))
  | Return entry =>
      truthy service_type = true /\
      entry !! "service_type" = Some service_type /\
      (if truthy service_reference
       then entry !! "service_reference" = Some service_reference /\
            entry !! "service_tcp_port" = None /\
            truthy service_tcp_port = false
       else entry !! "service_reference" = None /\
            entry !! "service_tcp_port" = Some service_tcp_port) /\
      entry !! "service_id"
      = (if truthy service_id then Some service_id else None) /\
      (forall k, is_Some (entry !! k) ->
         k = "service_type" \/ k = "service_reference" \/
         k = "service_tcp_port" \/ k = "service_id")
  end.
Proof.
  unfold DiscoveryServer.make_service_data.
  destruct (truthy service_type) eqn:Ht; simpl; [|by split; [|left]].
  destruct (truthy service_tcp_port) eqn:Hp,
           (truthy service_reference) eqn:Hr; simpl;
    try (by split; [|right]);
    destruct (truthy service_id) eqn:Hi;
    (split; [done|]);
    repeat split;
    try (by simplify_map_eq);
    intros k [v Hk];
    repeat (apply lookup_insert_Some in Hk as [[<- _]|[_ Hk]]; [tauto|]);
    apply lookup_singleton_Some in Hk as [<- _]; tauto.
Qed.

Lemma made_entry_has_type
    (service_type service_reference service_tcp_port service_id : value)
    (entry : payload) :
  DiscoveryServer.make_service_data service_type service_reference
    service_tcp_port service_id = Return entry ->
  entry !! "service_type" = Some service_type.
Proof.
  unfold DiscoveryServer.make_service_data.
  destruct (negb _); [done|]. destruct (_ && _); [done|].
  intros [= <-].
  destruct (truthy service_reference), (truthy service_id);
    by simplify_map_eq.
Qed.

(** X20: An entry built by [make_service_data] is what the server replies
    when its service type is requested and no earlier entry of the
    registry has that type. *)
Theorem made_entry_is_found {U}
    (service_type service_reference service_tcp_port service_id : value)
    (entry : payload) (before after : list payload)
    (respond : payload -> M U unit) :
  DiscoveryServer.make_service_data service_type service_reference
    service_tcp_port service_id = Return entry ->
  (forall other, other ∈ before ->
                 other !! "service_type" <> Some service_type) ->
  DiscoveryServer.receive (before ++ entry :: after)
    {["service_type" := service_type]} respond
  = respond entry.
Proof.
  intros Hmade Hbefore.
  pose proof (made_entry_has_type _ _ _ _ _ Hmade) as Htype.
  unfold DiscoveryServer.receive. rewrite lookup_singleton_eq.
  rewrite (find_first _ _ (length before) entry).
  - rewrite bool_decide_eq_false_2; [done|].
    intros ->. by rewrite lookup_empty in Htype.
  - by rewrite list_lookup_middle.
  - by apply bool_decide_eq_true.
  - intros j y Hj Hy. apply bool_decide_eq_false. apply Hbefore.
    rewrite lookup_app_l in Hy by done.
    by apply list_elem_of_lookup_2 in Hy.
Qed.

(** Witness: the allocator's entry, placed after the entry of a network
    service. *)
Lemma made_entry_is_found_witness :
  let respond : payload -> M unit unit := _discovery_handle_response 0 in
  DiscoveryServer.make_service_data (VServiceType ALLOCATOR) (VPort 1) VNone
    (VInt 7)
  = Return {["service_id" := VInt 7; "service_reference" := VPort 1;
             "service_type" := VServiceType ALLOCATOR]} /\
  DiscoveryServer.receive
    ([service_tcp_info]
     ++ {["service_id" := VInt 7; "service_reference" := VPort 1;
          "service_type" := VServiceType ALLOCATOR]} :: [service_direct_info])
    {["service_type" := VServiceType ALLOCATOR]} respond
  = respond {["service_id" := VInt 7; "service_reference" := VPort 1;
              "service_type" := VServiceType ALLOCATOR]}.
Proof.
  intros respond.
  assert (Hmade : DiscoveryServer.make_service_data (VServiceType ALLOCATOR)
                    (VPort 1) VNone (VInt 7)
                  = Return {["service_id" := VInt 7;
                             "service_reference" := VPort 1;
                             "service_type" := VServiceType ALLOCATOR]})
    by reflexivity.
  split; [exact Hmade|].
  apply (made_entry_is_found _ _ _ _ _ [service_tcp_info]
           [service_direct_info] respond Hmade).
  intros other Hin. apply list_elem_of_In in Hin. simpl in Hin.
  destruct Hin as [<-|[]]. vm_compute. discriminate.
Defined.

(** ** communication_port.py: the addresses a listener accepts *)

(** A character that is a decimal digit is no space, sign, dot or the
    letter l. *)
Lemma digit_is_plain c d :
  digit_value c = Some d ->
  is_space c = false /\ Ascii.eqb c "+" = false /\ Ascii.eqb c "-" = false /\
  Ascii.eqb c "." = false /\ Ascii.eqb c "l" = false /\ Ascii.eqb c "_" = false.
Proof.
  destruct c as [[] [] [] [] [] [] [] []]; vm_compute; intros H;
    try discriminate H; repeat split.
Qed.

Lemma digit_value_pretty_char x :
  (x < 10)%N -> digit_value (pretty_N_char x) = Some (Z.of_N x).
Proof.
  intros Hx.
  assert (x = 0 \/ x = 1 \/ x = 2 \/ x = 3 \/ x = 4 \/ x = 5 \/ x = 6 \/
          x = 7 \/ x = 8 \/ x = 9)%N as H by lia.
  repeat (destruct H as [->|H]; [reflexivity|]). by subst.
Qed.

(** Reading back the digits [pretty_N_go] writes in front of a text. *)
Lemma int_digits_pretty_go x s acc :
  exists acc', int_digits acc (pretty_N_go x s) = int_digits acc' s /\
               (acc = 0%Z -> acc' = Z.of_N x).
Proof.
  revert s acc. induction (N.lt_wf_0 x) as [x _ IH]; intros s acc.
  destruct (decide (x = 0%N)) as [->|Hx].
  { exists acc. by rewrite pretty_N_go_0. }
  rewrite pretty_N_go_step by lia.
  destruct (IH (x `div` 10)%N ltac:(apply N.div_lt; lia)
               (String (pretty_N_char (x `mod` 10)) s) acc) as (acc1 & H1 & H2).
  exists (10 * acc1 + Z.of_N (x `mod` 10))%Z. split.
  - rewrite H1. simpl.
    by rewrite digit_value_pretty_char by (apply N.mod_lt; lia).
  - intros Hacc. rewrite (H2 Hacc).
    rewrite (N.div_mod x 10) at 3 by lia. lia.
Qed.

Lemma pretty_go_starts_with_digit x s :
  (0 < x)%N ->
  exists c rest d, pretty_N_go x s = String c rest /\ digit_value c = Some d.
Proof.
  revert s. induction (N.lt_wf_0 x) as [x _ IH]; intros s Hx.
  rewrite pretty_N_go_step by done.
  destruct (decide (x `div` 10 = 0)%N) as [Hz|Hz].
  - rewrite Hz, pretty_N_go_0. eexists _, _, _. split; [done|].
    apply digit_value_pretty_char. apply N.mod_lt. lia.
  - apply IH; [apply N.div_lt; lia|by apply N.neq_0_lt_0].
Qed.

(** Does the text contain the character? *)
Fixpoint has_char (sep : Ascii.ascii) (s : string) : bool :=
  match s with
  | EmptyString => false
  | String c rest => Ascii.eqb c sep || has_char sep rest
  end.

Lemma has_dot_pretty_go x s :
  has_char "." (pretty_N_go x s) = has_char "." s.
Proof.
  revert s. induction (N.lt_wf_0 x) as [x _ IH]; intros s.
  destruct (decide (x = 0%N)) as [->|Hx]; [by rewrite pretty_N_go_0|].
  rewrite pretty_N_go_step by lia.
  rewrite IH by (apply N.div_lt; lia). simpl.
  pose proof (digit_value_pretty_char (x `mod` 10)
                ltac:(apply N.mod_lt; lia)) as Hd.
  apply digit_is_plain in Hd as (_ & _ & _ & -> & _). done.
Qed.

(** [int()] reads back the decimal text of an integer, and that text
    has no dot and is not the word localhost. *)
Lemma py_int_pretty (z : Z) :
  py_int (pretty z) = Some z /\ has_char "." (pretty z) = false /\
  exists c rest, pretty z = String c rest /\ Ascii.eqb c "l" = false.
Proof.
  assert (HN : forall x, (0 < x)%N ->
             py_int (pretty_N_go x "") = Some (Z.of_N x) /\
             py_int (String "-" (pretty_N_go x "")) = Some (- Z.of_N x)%Z /\
             has_char "." (pretty_N_go x "") = false /\
             exists c rest, pretty_N_go x "" = String c rest /\
                            Ascii.eqb c "l" = false).
  { intros x Hx.
    destruct (pretty_go_starts_with_digit x "" Hx) as (c & rest & d & Hs & Hd).
    destruct (int_digits_pretty_go x "" 0) as (acc' & Hi & Hacc).
    specialize (Hacc eq_refl). subst acc'. simpl in Hi.
    destruct (digit_is_plain c d Hd) as (Hsp & Hplus & Hminus & _ & Hl & _).
    split; [|split; [|split]].
    - unfold py_int. rewrite Hs. simpl. rewrite Hsp, Hplus, Hminus, Hd.
      rewrite <- Hs, Hi. reflexivity.
    - unfold py_int. simpl. rewrite Hs, Hd. rewrite <- Hs, Hi. reflexivity.
    - by rewrite has_dot_pretty_go.
    - by eexists _, _. }
  destruct z as [|p|p].
  - split; [reflexivity|]. split; [reflexivity|]. by eexists _, _.
  - destruct (HN (N.pos p) ltac:(lia)) as (H1 & _ & H3 & H4).
    unfold pretty, pretty_Z, pretty, pretty_positive, pretty, pretty_N.
    rewrite decide_False by lia. done.
  - destruct (HN (N.pos p) ltac:(lia)) as (_ & H2 & H3 & _).
    unfold pretty, pretty_Z, pretty, pretty_positive, pretty, pretty_N.
    rewrite decide_False by lia.
    change ("-" +:+ pretty_N_go (N.pos p) "")
      with (String "-" (pretty_N_go (N.pos p) "")).
    split; [exact H2|]. split; [simpl; exact H3|]. by eexists _, _.
Qed.

Lemma split_go_part sep p rest :
  has_char sep p = false ->
  split_go sep (p +:+ String sep rest) = (p, split sep rest) /\
  split_go sep p = (p, []).
Proof.
  induction p as [|c p IH]; simpl.
  - intros _. rewrite Ascii.eqb_refl. unfold split.
    by destruct (split_go sep rest).
  - intros H. apply orb_false_elim in H as [Hc Hp].
    destruct (IH Hp) as [H1 H2].
    change (String c p +:+ String sep rest)
      with (String c (p +:+ String sep rest)).
    cbn [split_go]. by rewrite H1, H2, Hc.
Qed.

(** The text of a dotted quad. *)
Definition dotted (a b c d : Z) : string :=
  pretty a +:+ String "." (pretty b +:+ String "."
    (pretty c +:+ String "." (pretty d))).

(** X21: [_check_address] accepts [localhost]; it accepts the dotted quad of
    four integers written in decimal exactly when each of them lies
    between 0 and 255; and it rejects every other target that does not
    consist of exactly four dot-separated parts. *)
Theorem check_address_accepts_octets (a b c d : Z) (target : string) :
  _check_address "localhost" = true /\
  (_check_address (dotted a b c d) = true <->
   (0 <= a <= 255 /\ 0 <= b <= 255 /\ 0 <= c <= 255 /\ 0 <= d <= 255)%Z) /\
  (target <> "localhost" -> length (split "." target) <> 4 ->
   _check_address target = false).
Proof.
  split; [reflexivity|]. split.
  - destruct (py_int_pretty a) as (Ia & Da & ca & ra & Ha & Hla).
    destruct (py_int_pretty b) as (Ib & Db & _).
    destruct (py_int_pretty c) as (Ic & Dc & _).
    destruct (py_int_pretty d) as (Id & Dd & _).
    unfold _check_address.
    assert (Hloc : String.eqb (dotted a b c d) "localhost" = false).
    { unfold dotted. rewrite Ha.
      change (String ca ra +:+ ?s) with (String ca (ra +:+ s)).
      simpl. by rewrite Hla. }
    rewrite Hloc.
    assert (Hsplit : split "." (dotted a b c d)
                     = [pretty a; pretty b; pretty c; pretty d]).
    { unfold dotted, split.
      rewrite (proj1 (split_go_part "." (pretty a) _ Da)). unfold split.
      rewrite (proj1 (split_go_part "." (pretty b) _ Db)). unfold split.
      rewrite (proj1 (split_go_part "." (pretty c) _ Dc)). unfold split.
      by rewrite (proj2 (split_go_part "." (pretty d) "" Dd)). }
    rewrite Hsplit. cbn [int_all]. rewrite Ia, Ib, Ic, Id.
    cbn [List.filter length].
    destruct (Z.leb_spec 0 a), (Z.leb_spec a 255), (Z.leb_spec 0 b),
             (Z.leb_spec b 255), (Z.leb_spec 0 c), (Z.leb_spec c 255),
             (Z.leb_spec 0 d), (Z.leb_spec d 255);
      simpl; split; intros Hgoal; try discriminate Hgoal; try lia;
      reflexivity.
  - intros Hloc Hlen. unfold _check_address.
    apply String.eqb_neq in Hloc. rewrite Hloc.
    destruct (int_all _); [|done].
    apply Nat.eqb_neq in Hlen. by rewrite Hlen.
Qed.

(** Witness: a target with three parts. *)
Lemma check_address_accepts_octets_witness :
  "10.0.1" <> "localhost" /\ length (split "." "10.0.1") <> 4 /\
  _check_address "10.0.1" = false.
Proof.
  assert (H1 : "10.0.1" <> "localhost") by discriminate.
  assert (H2 : length (split "." "10.0.1") <> 4) by (vm_compute; lia).
  split; [exact H1|]. split; [exact H2|].
  destruct (check_address_accepts_octets 0 0 0 0 "10.0.1") as (_ & _ & H).
  exact (H H1 H2).
Defined.

(** ** service.py: cancelling before the worker runs *)

Lemma pops_return_queued_events m s q e :
  heap_ok (dtime s) (PriorityQueue._pq q) ->
  e ∈ returned (run (repeat Pop m) (s, q)).2 -> e ∈ PriorityQueue._pq q.
Proof.
  revert q. induction m as [|m IH]; intros q Hok He.
  { by apply elem_of_nil in He. }
  cbn [repeat run step] in He.
  pose proof (pop_spec s q Hok) as Hpop.
  destruct (PriorityQueue.pop s q) as [[y|ex] q'].
  - destruct Hpop as (_ & Hok' & (dropped & Hperm & _) & _).
    specialize (IH q' Hok').
    destruct (run (repeat Pop m) (s, q')) as [st2 outs]. simpl in *.
    rewrite Hperm. apply elem_of_app. right.
    apply elem_of_cons in He as [->|He]; [by left|right; by apply IH].
  - destruct Hpop as (_ & Hq' & _).
    assert (Hok' : heap_ok (dtime s) (PriorityQueue._pq q')).
    { intros i Hi. rewrite Hq' in Hi. simpl in Hi. lia. }
    specialize (IH q' Hok').
    destruct (run (repeat Pop m) (s, q')) as [st2 outs]. simpl in *.
    specialize (IH He). rewrite Hq' in IH. by apply elem_of_nil in IH.
Qed.

(** X13: Events admitted to an asynchronous service and then cancelled through
    [Service.cancel] are never executed by the worker loop: whatever the
    number of turns, every event executed was admitted, is uncancelled,
    and is not among the events [cancel] returned. *)
Theorem service_cancel_keeps_events_from_the_worker (events : list ref)
    (s : store) (key : PriorityQueue.keyfn) (n : nat) :
  exists sv1 s1 le sv2 x,
    add_events DummyService.process_event (Service.init ASYNC) s [] events
    = Return (sv1, []) /\
    Service.cancel key s sv1 = Return (s1, le) /\
    loop_turns n s1 sv1 [] = Return (sv2, x) /\
    (forall e, e ∈ x ->
       cancelled (s1 e) = false /\ (e ∉ le) /\ e ∈ events).
Proof.
  set (sv := Service.init ASYNC).
  set (q := (run (map Push events) (s, PriorityQueue.init)).1.2).
  set (s1 := (PriorityQueue.cancel key s q).1).
  set (le := (PriorityQueue.cancel key s q).2).
  set (final := run (repeat Pop n) (s1, q)).
  destruct (push_store_unchanged events (s, PriorityQueue.init))
    as (Hs & Hperm & _).
  simpl in Hs, Hperm. fold q in Hperm. rewrite app_nil_r in Hperm.
  assert (Hok : heap_ok (dtime s) (PriorityQueue._pq q)).
  { pose proof (run_queue_ok (map Push events) (s, PriorityQueue.init)) as H.
    unfold queue_ok in H. rewrite Hs in H. apply H.
    intros i Hi. simpl in Hi. lia. }
  assert (Hok1 : heap_ok (dtime s1) (PriorityQueue._pq q)).
  { eapply heap_ok_ext; [|exact Hok]. intros r. symmetry.
    apply cancel_fold_dtime. }
  exists (with_queue sv q), s1, le, (with_queue sv final.1.2),
         (returned final.2).
  split; [apply (add_events_async _ sv PriorityQueue.init); done|].
  split.
  { unfold Service.cancel, s1, le. simpl.
    by destruct (PriorityQueue.cancel key s q). }
  split; [apply (loop_turns_are_pops _ s1 sv q []); done|].
  intros e He.
  assert (Hlive : cancelled (s1 e) = false).
  { by apply (run_returned_live (repeat Pop n) (s1, q) e). }
  split; [done|]. split.
  - intros Hin.
    destruct (cancel_fold_char key (PriorityQueue._pq q) s [])
      as (added & H1 & _ & H3).
    simpl in H1. fold (PriorityQueue.cancel key s q) in H1, H3.
    fold le in H1. fold s1 in H3. subst added.
    assert (Hc : cancelled (s1 e) = true) by (apply H3; by right).
    clash_bool Hc Hlive.
  - rewrite <- Hperm. by apply (pops_return_queued_events n s1 q e).
Qed.
